(** * energy_py: the agent's experience memory

    A shallow embedding of [energy_py/agents/memory.py] (class [Memory]) and
    the properties of its specification.

    Numbers are IEEE binary64 floats, as numpy holds them: Rocq's primitive
    [float].  Episode and step counters are Python integers: [Z].  A Python
    exception is a value of [exn]; a method that may raise returns a
    [result]. *)

From Stdlib Require Import String Bool ZArith Lia List Sorted.
From Stdlib Require Uint63.
From Stdlib Require Import PrimFloat FloatOps FloatAxioms.
Import ListNotations.

Set Implicit Arguments.

(** ** Python exceptions *)

Module Py.

Inductive exn : Set :=
| AssertionError
| IndexError
| ValueError
| TypeError.

Inductive result (A : Type) : Type :=
| Ok (a : A)
| Raise (e : exn).

Arguments Ok {A} a.
Arguments Raise {A} e.

Definition bind {A B : Type} (r : result A) (k : A -> result B) : result B :=
  match r with
  | Ok a => k a
  | Raise e => Raise e
  end.

(** [assert c]; assertions are taken as enabled. *)
Definition assert (c : bool) : result unit :=
  if c then Ok tt else Raise AssertionError.

Definition raises {A : Type} (r : result A) : Prop :=
  exists e, r = Raise e.

(** [x == s] for a configuration value [x] that is [None] or a string. *)
Definition eq_str (x : option string) (s : string) : bool :=
  match x with
  | Some t => String.eqb t s
  | None => false
  end.

(** [b == n] for a boolean [b] and an integer [n]: Python compares the
    boolean as the integer 1 or 0. *)
Definition bool_eq_int (b : bool) (n : Z) : bool :=
  Z.eqb (Z.b2z b) n.

(** [l[start:]] for a Python list: a negative [start] counts from the end
    and is clipped at the front of the list. *)
Definition slice_from {A : Type} (start : Z) (l : list A) : list A :=
  let n := Z.of_nat (length l) in
  let s := if (start <? 0)%Z then Z.max 0 (n + start) else start in
  skipn (Z.to_nat s) l.

(** [l[start:stop] = new] for [0 <= start] and [0 <= stop]: the slice is
    replaced by [new], whatever the two lengths are. *)
Definition assign_slice {A : Type} (start stop : nat) (new l : list A) : list A :=
  firstn start l ++ new ++ skipn (Nat.max start stop) l.

End Py.

Import Py.

Notation "x <- e ;; k" := (Py.bind e (fun x => k))
  (at level 61, e at next level, right associativity).
Notation "e ;;; k" := (Py.bind e (fun _ => k))
  (at level 61, right associativity).

(** ** numpy arrays *)

Module Np.

Definition vec := list float.

(** A two-dimensional array: its shape and its elements in row order. *)
Record ndarray (A : Type) : Type := mk_ndarray {
  nrows : nat;
  ncols : nat;
  data : list A
}.

(** [a.all()] on a numeric array: every element is truthy, that is, differs
    from zero (a not-a-number is truthy). *)
Definition all (a : vec) : bool :=
  forallb (fun x => negb (x =? 0)%float) a.

(** [a[mask]] for a boolean [mask] over the first axis. *)
Fixpoint boolean_index {A : Type} (mask : list bool) (a : list A) : list A :=
  match mask, a with
  | b :: mask', x :: a' =>
      if b then x :: boolean_index mask' a' else boolean_index mask' a'
  | _, _ => []
  end.

(** [np.array(rows)] for a list of vectors, flattened in row order.  Rows of
    unequal lengths do not make a numeric array: numpy raises [ValueError],
    or, in older versions, builds an array of objects on which the reshape
    that follows raises it.  Either way the batch builders cannot go on
    with one. *)
Definition uniform (rows : list vec) : bool :=
  match rows with
  | [] => true
  | r :: rs => forallb (fun r' => Nat.eqb (length r') (length r)) rs
  end.

Definition array (rows : list vec) : result vec :=
  if uniform rows then Ok (concat rows) else Raise ValueError.

(** [a.reshape(rows, cols)] *)
Definition reshape {A : Type} (rows cols : nat) (a : list A) : result (ndarray A) :=
  if Nat.eqb (length a) (rows * cols)
  then Ok (mk_ndarray rows cols a)
  else Raise ValueError.

(** [a.reshape(-1, cols)]: the number of rows is inferred; it cannot be
    when [cols] is zero or does not divide the size. *)
Definition reshape_infer {A : Type} (cols : nat) (a : list A) : result (ndarray A) :=
  match cols with
  | O => Raise ValueError
  | S _ =>
      if Nat.eqb (Nat.modulo (length a) cols) 0
      then Ok (mk_ndarray (Nat.div (length a) cols) cols a)
      else Raise ValueError
  end.

(** [np.any(np.isnan(a))] *)
Definition any_isnan (a : list float) : bool :=
  existsb is_nan a.

(** The float of a length or of a count (below 2^63). *)
Definition of_nat (n : nat) : float :=
  of_uint63 (Uint63.of_Z (Z.of_nat n)).

(** [a.sum()], accumulated from the left.  numpy adds a long array in
    pairs, which can round otherwise; no property below depends on the
    order. *)
Definition sum (a : list float) : float :=
  fold_left PrimFloat.add a 0%float.

Definition mean (a : list float) : float :=
  (sum a / of_nat (length a))%float.

(** [a.std()]: the square root of the mean squared deviation. *)
Definition std (a : list float) : float :=
  let mu := mean a in
  sqrt (mean (map (fun x => (abs (x - mu) * abs (x - mu))%float) a)).

(** [a.min()] and [a.max()]: a not-a-number wins; the reduction of an empty
    array raises. *)
Definition minimum (x y : float) : float :=
  if is_nan x then x else if is_nan y then y
  else if (y <? x)%float then y else x.

Definition maximum (x y : float) : float :=
  if is_nan x then x else if is_nan y then y
  else if (x <? y)%float then y else x.

Definition min (a : list float) : result float :=
  match a with
  | [] => Raise ValueError
  | x :: a' => Ok (fold_left minimum a' x)
  end.

Definition max (a : list float) : result float :=
  match a with
  | [] => Raise ValueError
  | x :: a' => Ok (fold_left maximum a' x)
  end.

(** [int(x)] for a finite float [x]: truncation towards zero. *)
Definition to_int (x : float) : Z :=
  match Prim2SF x with
  | SpecFloat.S754_finite s m e =>
      let v := if (0 <=? e)%Z then (Z.pos m * 2 ^ e)%Z
               else (Z.pos m / 2 ^ (- e))%Z in
      if s then (- v)%Z else v
  | _ => 0%Z
  end.

End Np.

Import Np.

(** ** The data model *)

(** One dimension of a space, with its bounds. *)
Record Dim : Set := mk_dim {
  low : float;
  high : float
}.

(** The observation and action spaces are lists of dimensions; [len(space)]
    is the length of the list.  The reward space is a single dimension. *)
Definition Space := list Dim.

(** experience = (observation, action, reward, next_observation, step, episode) *)
Record Experience : Set := mk_experience {
  observation : vec;
  action : vec;
  reward : float;
  next_observation : vec;
  step : Z;
  episode : Z
}.

(** machine_experience = (observation, action, reward, next_observation,
    step, episode, discounted_return); the return is [None] until
    [calculate_returns] fills it in. *)
Record MachineExperience : Set := mk_machine_experience {
  mach_observation : vec;
  mach_action : vec;
  mach_reward : float;
  mach_next_observation : vec;
  mach_step : Z;
  mach_episode : Z;
  discounted_return : option float
}.

Record Memory : Type := mk_memory {
  observation_space : Space;
  action_space : Space;
  reward_space : Dim;
  discount : float;
  memory_length : Z;
  process_reward : option string;
  process_return : option string;
  experiences : list Experience;
  machine_experiences : list MachineExperience;
  agent_stats : list (string * list float)
}.

(** The value the environment puts in every entry of [next_observation] at
    the end of an episode. *)
Definition terminal_marker : float := (-999999)%float.

Definition is_terminal (next_obs : vec) : bool :=
  forallb (fun x => (x =? terminal_marker)%float) next_obs.

Definition with_logs (m : Memory) (exps : list Experience)
    (mach_exps : list MachineExperience) : Memory :=
  mk_memory (observation_space m) (action_space m) (reward_space m)
    (discount m) (memory_length m) (process_reward m) (process_return m)
    exps mach_exps (agent_stats m).

(** [Memory.reset] *)
Definition reset (m : Memory) : Memory :=
  mk_memory (observation_space m) (action_space m) (reward_space m)
    (discount m) (memory_length m) (process_reward m) (process_return m)
    [] [] [].

(** ** Adding experience *)

Section Transformer.

(** [Utils.scale_array] and [Utils.normalize] are inherited from a class
    outside this module: they are taken as they come, and may raise. *)
Variable scale_array : vec -> Space -> result vec.
Variable normalize : float -> float -> float -> result float.

(** [Memory.make_machine_experience].  The normalized reward is reshaped to
    one row and one column in the code, which leaves its value as it is. *)
Definition make_machine_experience (m : Memory) (exp : Experience)
    : result MachineExperience :=
  scaled_obs <- scale_array (observation exp) (observation_space m) ;;
  scaled_action <- scale_array (action exp) (action_space m) ;;
  rwd <- (if eq_str (process_reward m) "normalize"
          then normalize (reward exp) (low (reward_space m)) (high (reward_space m))
          else Ok (reward exp)) ;;
  scaled_next_obs <-
    (if bool_eq_int (Np.all (next_observation exp)) (-999999)
     then Ok (next_observation exp)
     else scale_array (next_observation exp) (observation_space m)) ;;
  Ok (mk_machine_experience scaled_obs scaled_action rwd scaled_next_obs
        (step exp) (episode exp) None).

(** [Memory.add_experience]: the memory after the call and its outcome.  An
    exception of [make_machine_experience] leaves the memory as it was; the
    final assertion is checked after both appends. *)
Definition add_experience (m : Memory) (observation action : vec)
    (reward : float) (next_observation : vec) (step episode : Z)
    : Memory * result unit :=
  let exp := mk_experience observation action reward next_observation step episode in
  match make_machine_experience m exp with
  | Raise e => (m, Raise e)
  | Ok m_exp =>
      let m' := with_logs m (experiences m ++ [exp])
                  (machine_experiences m ++ [m_exp]) in
      (m', assert (Nat.eqb (length (experiences m'))
                     (length (machine_experiences m'))))
  end.

Definition add (m : Memory) (exp : Experience) : Memory * result unit :=
  add_experience m (observation exp) (action exp) (reward exp)
    (next_observation exp) (step exp) (episode exp).

(** The memory after a sequence of [add_experience] calls, one per element
    of [calls], whatever each call's outcome. *)
Definition add_all (m : Memory) (calls : list Experience) : Memory :=
  fold_left (fun m exp => fst (add m exp)) calls m.

End Transformer.

(** ** Monte Carlo returns *)

(** [exp[6] = rtn] *)
Definition set_return (exp : MachineExperience) (rtn : float) : MachineExperience :=
  mk_machine_experience (mach_observation exp) (mach_action exp) (mach_reward exp)
    (mach_next_observation exp) (mach_step exp) (mach_episode exp) (Some rtn).

(** [all_experiences[:, 5] == episode_number]; the column of an empty log
    cannot be taken. *)
Definition episode_mask_of (all_experiences : list MachineExperience)
    (episode_number : Z) : result (list bool) :=
  match all_experiences with
  | [] => Raise IndexError
  | _ => Ok (map (fun exp => Z.eqb (mach_episode exp) episode_number) all_experiences)
  end.

(** The loop over [episode_experiences[::-1]]: [R = r + discount * R], then
    [returns.insert(0, R)], from [R, returns = 0, []]. *)
Definition returns_step (discount : float) (acc : float * list float)
    (exp : MachineExperience) : float * list float :=
  let '(R, returns) := acc in
  let r := mach_reward exp in
  let R' := (r + discount * R)%float in
  (R', R' :: returns).

Definition discounted_returns (discount : float)
    (episode_experiences : list MachineExperience) : list float :=
  snd (fold_left (returns_step discount) (rev episode_experiences) (0%float, [])).

(** The three [if]s on [process_return], one after the other. *)
Definition scale_returns (process_return : option string) (rtns : list float)
    : result (list float) :=
  let rtns :=
    if eq_str process_return "scale_only"
    then map (fun x => (x / Np.std rtns)%float) rtns
    else rtns in
  let rtns :=
    if eq_str process_return "mean_scale"
    then map (fun x => ((x - Np.mean rtns) / Np.std rtns)%float) rtns
    else rtns in
  if eq_str process_return "min_max"
  then lo <- Np.min rtns ;;
       hi <- Np.max rtns ;;
       Ok (map (fun x => ((x - lo) / (hi - lo))%float) rtns)
  else Ok rtns.

(** [for exp, rtn in zip(episode_experiences, rtns)] *)
Definition fill_returns (episode_experiences : list MachineExperience)
    (rtns : list float) : list MachineExperience :=
  map (fun p => set_return (fst p) (snd p)) (combine episode_experiences rtns).

(** [Memory.calculate_returns], up to the assignment to the log. *)
Definition calculate_returns_log (m : Memory) (episode_number : Z)
    : result (list MachineExperience) :=
  let all_experiences := machine_experiences m in
  episode_mask <- episode_mask_of all_experiences episode_number ;;
  let episode_experiences := boolean_index episode_mask all_experiences in
  let returns := discounted_returns (discount m) episode_experiences in
  rtns <- scale_returns (process_return m) returns ;;
  assert (Nat.eqb (length episode_experiences) (length rtns)) ;;;
  let new_exps := fill_returns episode_experiences rtns in
  let idx_array := seq 0 (length all_experiences) in
  let episode_indicies := boolean_index episode_mask idx_array in
  match episode_indicies with
  | [] => Raise IndexError
  | start :: _ =>
      let stop := last episode_indicies 0 + 1 in
      Ok (assign_slice start stop new_exps all_experiences)
  end.

(** [Memory.calculate_returns]: the memory after the call and its outcome.
    The only mutation is the last statement, so an exception leaves the
    memory as it was. *)
Definition calculate_returns (m : Memory) (episode_number : Z)
    : Memory * result unit :=
  match calculate_returns_log m episode_number with
  | Ok log' => (with_logs m (experiences m) log', Ok tt)
  | Raise e => (m, Raise e)
  end.

(** ** Batches *)

Definition Batch3 := (ndarray float * ndarray float * ndarray float)%type.
Definition Batch4 :=
  (ndarray float * ndarray float * ndarray float * ndarray float)%type.

(** [np.array(returns)] for the return fields: floats, or Python objects as
    soon as one of them is [None]. *)
Definition all_set (returns : list (option float)) : option (list float) :=
  fold_right (fun r acc =>
    match r, acc with
    | Some x, Some xs => Some (x :: xs)
    | _, _ => None
    end) (Some []) returns.

(** [assert not np.any(np.isnan(a))] for an array of return fields:
    [np.isnan] raises on an array of objects. *)
Definition assert_returns_not_nan (returns : ndarray (option float))
    : result (ndarray float) :=
  match all_set (data returns) with
  | None => Raise TypeError
  | Some xs =>
      assert (negb (any_isnan xs)) ;;;
      Ok (mk_ndarray (nrows returns) (ncols returns) xs)
  end.

Definition assert_not_nan (a : ndarray float) : result unit :=
  assert (negb (any_isnan (data a))).

(** [Memory.get_episode_batch], up to the shape assertions: the three arrays
    it is about to check and return. *)
Definition episode_arrays (m : Memory) (episode_number : Z) (scaled_actions : bool)
    : result (ndarray float * ndarray float * ndarray (option float)) :=
  let exps := experiences m in
  let mach_exps := machine_experiences m in
  assert (Nat.eqb (length exps) (length mach_exps)) ;;;
  episode_mask <- episode_mask_of mach_exps episode_number ;;
  let episode_exps := boolean_index episode_mask exps in
  let episode_mach_exps := boolean_index episode_mask mach_exps in
  let rows := combine episode_exps episode_mach_exps in
  let observations := map (fun p => mach_observation (snd p)) rows in
  let actions :=
    map (fun p => if scaled_actions then mach_action (snd p) else action (fst p)) rows in
  let returns := map (fun p => discounted_return (snd p)) rows in
  observations <- Np.array observations ;;
  observations <- reshape_infer (length (observation_space m)) observations ;;
  actions <- Np.array actions ;;
  actions <- reshape_infer (length (action_space m)) actions ;;
  returns <- reshape_infer 1 returns ;;
  assert (Nat.eqb (nrows observations) (nrows actions)) ;;;
  assert (Nat.eqb (nrows observations) (nrows returns)) ;;;
  Ok (observations, actions, returns).

(** [Memory.get_episode_batch] *)
Definition get_episode_batch (m : Memory) (episode_number : Z) (scaled_actions : bool)
    : result Batch3 :=
  arrays <- episode_arrays m episode_number scaled_actions ;;
  let '(observations, actions, returns) := arrays in
  assert_not_nan observations ;;;
  assert_not_nan actions ;;;
  returns <- assert_returns_not_nan returns ;;
  Ok (observations, actions, returns).

(** [[mach_memory[i] for i in indicies]] *)
Fixpoint take_indices {A : Type} (l : list A) (indicies : list nat) : result (list A) :=
  match indicies with
  | [] => Ok []
  | i :: rest =>
      match nth_error l i with
      | None => Raise IndexError
      | Some x => xs <- take_indices l rest ;; Ok (x :: xs)
      end
  end.

Section Sampler.

(** numpy's global random generator: its state, and the draw of [size]
    integers below [high] from it. *)
Variable RandomState : Type.
Variable draw : RandomState -> nat -> nat -> list nat * RandomState.

(** [np.random.randint(low=0, high=high, size=size)]: it refuses an empty
    range and a negative size.  An empty range is refused here whatever the
    size, as numpy did before 1.17; later versions return the empty draw
    when the size is zero. *)
Definition randint (g : RandomState) (high size : Z)
    : result (list nat) * RandomState :=
  if (high <=? 0)%Z then (Raise ValueError, g)
  else if (size <? 0)%Z then (Raise ValueError, g)
  else let (indicies, g') := draw g (Z.to_nat high) (Z.to_nat size) in
       (Ok indicies, g').

(** [Memory.get_random_batch], lines one to four: the size of the sample,
    the window of the log and the records drawn from it. *)
Definition sample_size_of (m : Memory) (batch_size : Z) : Z :=
  Z.min batch_size (Z.of_nat (length (machine_experiences m))).

Definition mach_memory_of (m : Memory) : list MachineExperience :=
  slice_from (- memory_length m) (machine_experiences m).

Definition sample_batch (m : Memory) (batch_size : Z) (g : RandomState)
    : result (list MachineExperience) * RandomState :=
  let sample_size := sample_size_of m batch_size in
  let mach_memory := mach_memory_of m in
  let (drawn, g') := randint g (Z.of_nat (length mach_memory)) sample_size in
  (indicies <- drawn ;; take_indices mach_memory indicies, g').

(** The four arrays of a batch of records, reshaped and with their row
    counts compared. *)
Definition batch_arrays (m : Memory) (sample_size : nat)
    (mach_exp_batch : list MachineExperience) : result Batch4 :=
  let obs := map mach_observation mach_exp_batch in
  let acts := map mach_action mach_exp_batch in
  let rwrds := map mach_reward mach_exp_batch in
  let next_obs := map mach_next_observation mach_exp_batch in
  let obs_space_dim := length (observation_space m) in
  let act_space_dim := length (action_space m) in
  obs <- Np.array obs ;;
  obs <- reshape sample_size obs_space_dim obs ;;
  acts <- Np.array acts ;;
  actions <- reshape sample_size act_space_dim acts ;;
  rewards <- reshape sample_size 1 rwrds ;;
  next_obs <- Np.array next_obs ;;
  next_obs <- reshape sample_size obs_space_dim next_obs ;;
  assert (Nat.eqb (nrows obs) (nrows actions)) ;;;
  assert (Nat.eqb (nrows obs) (nrows rewards)) ;;;
  assert (Nat.eqb (nrows obs) (nrows next_obs)) ;;;
  Ok (obs, actions, rewards, next_obs).

(** [Memory.get_random_batch], up to the shape assertions. *)
Definition random_arrays (m : Memory) (batch_size : Z) (g : RandomState)
    : result Batch4 * RandomState :=
  let (sampled, g') := sample_batch m batch_size g in
  (mach_exp_batch <- sampled ;;
   batch_arrays m (Z.to_nat (sample_size_of m batch_size)) mach_exp_batch, g').

(** [Memory.get_random_batch] *)
Definition get_random_batch (m : Memory) (batch_size : Z) (g : RandomState)
    : result Batch4 * RandomState :=
  let (arrays, g') := random_arrays m batch_size g in
  (arrays <- arrays ;;
   let '(obs, actions, rewards, next_obs) := arrays in
   assert_not_nan obs ;;;
   assert_not_nan actions ;;;
   assert_not_nan rewards ;;;
   assert_not_nan next_obs ;;;
   Ok (obs, actions, rewards, next_obs), g').

End Sampler.

(** ** The tables of [output_results] *)

Module Pd.

(** [df.groupby('episode').sum()] on one column, in plain arithmetic: one
    row per key, keys in increasing order, each sum accumulated in row order
    from the left.  pandas skips a missing value where this sum keeps it, and
    its recent versions compensate the sum; [groupby_sum_with] below leaves
    the sum open. *)
Fixpoint group_add (k : Z) (v : float) (groups : list (Z * float))
    : list (Z * float) :=
  match groups with
  | [] => [(k, (0 + v)%float)]
  | (k', s) :: rest =>
      if (k =? k')%Z then (k', (s + v)%float) :: rest
      else if (k <? k')%Z then (k, (0 + v)%float) :: groups
      else (k', s) :: group_add k v rest
  end.

Definition groupby_sum (rows : list (Z * float)) : list (Z * float) :=
  fold_left (fun groups row => group_add (fst row) (snd row) groups) rows [].

(** [s.cummax()]: the running maximum; a missing value stays missing and
    does not count. *)
Fixpoint cummax_from (cur : option float) (s : list float) : list float :=
  match s with
  | [] => []
  | x :: rest =>
      if is_nan x then x :: cummax_from cur rest
      else
        let c := match cur with
                 | None => x
                 | Some c => if (c <? x)%float then x else c
                 end in
        c :: cummax_from (Some c) rest
  end.

Definition cummax (s : list float) : list float := cummax_from None s.

(** The rows [start, stop) of the fixed window that ends at row [i], or is
    centred on it; both ends are clipped to the series. *)
Definition window_bounds (n window : nat) (center : bool) (i : nat) : nat * nat :=
  let offset := if center then (window - 1) / 2 else 0 in
  let stop := i + 1 + offset in
  let start := stop - window in
  (Nat.min start n, Nat.min stop n).

(** The mean of the observations of a window: missing values are skipped,
    and fewer than [min_periods] observations give a missing value.  The sum
    is taken over the window; pandas updates a running sum instead, which
    can round otherwise. *)
Definition window_mean (min_periods : nat) (obs : list float) : float :=
  let present := filter (fun x => negb (is_nan x)) obs in
  if Nat.ltb (length present) (Nat.max min_periods 1) then nan
  else (Np.sum present / Np.of_nat (length present))%float.

(** [s.rolling(window=window, min_periods=min_periods, center=center).mean()],
    in plain arithmetic: every window is summed afresh.  [rolling_mean_with]
    below leaves the mean of a window open. *)
Definition rolling_mean (window min_periods : nat) (center : bool)
    (s : list float) : list float :=
  map (fun i =>
         let (start, stop) := window_bounds (length s) window center i in
         window_mean min_periods (firstn (stop - start) (skipn start s)))
      (seq 0 (length s)).

End Pd.

(** The episodic table: its index and the columns derived from the summed
    reward. *)
Record EpisodeTable : Set := mk_episode_table {
  ep_index : list Z;
  ep_reward : list float;
  ep_cum_max_reward : list float;
  ep_rolling_mean : list float
}.

Record Results : Type := mk_results {
  dataframe_steps : list (Experience * MachineExperience);
  dataframe_episodic : EpisodeTable;
  agent_stats_series : list (string * list float)
}.

(** [window = max(int(df_ep.shape[0]*0.1), 2)]; the literal is the binary64
    value of 0.1. *)
Definition rolling_window (n_episodes : nat) : nat :=
  Z.to_nat (Z.max (to_int (Np.of_nat n_episodes * 0x1.999999999999ap-4)%float) 2).

(** [Memory.output_results]: the step table pairs the two logs row by row;
    of the columns summed per episode the table keeps the reward, from which
    the two derived columns are computed. *)
Definition output_results (m : Memory) : result Results :=
  assert (Nat.eqb (length (experiences m)) (length (machine_experiences m))) ;;;
  let df_stp := combine (experiences m) (machine_experiences m) in
  let groups :=
    Pd.groupby_sum (map (fun row => (episode (fst row), reward (fst row))) df_stp) in
  let rewards := map snd groups in
  let window := rolling_window (length groups) in
  Ok (mk_results df_stp
        (mk_episode_table (map fst groups) rewards (Pd.cummax rewards)
           (Pd.rolling_mean window 1 false rewards))
        (agent_stats m)).


(** The returns as the specification words them: the return of a step is its
    reward plus the discounted return of the next step, and zero after the
    last step. *)
Fixpoint backward_returns (discount : float) (rewards : list float) : list float :=
  match rewards with
  | [] => []
  | r :: rest =>
      let tail := backward_returns discount rest in
      (r + discount * hd 0%float tail)%float :: tail
  end.

(** The records of an episode, in log order. *)
Definition in_episode (episode_number : Z) (exp : MachineExperience) : bool :=
  Z.eqb (mach_episode exp) episode_number.

Definition episode_records (m : Memory) (episode_number : Z) : list MachineExperience :=
  filter (in_episode episode_number) (machine_experiences m).

(** Two records that differ at most in their return. *)
Definition same_but_return (a b : MachineExperience) : Prop :=
  mach_observation a = mach_observation b /\
  mach_action a = mach_action b /\
  mach_reward a = mach_reward b /\
  mach_next_observation a = mach_next_observation b /\
  mach_step a = mach_step b /\
  mach_episode a = mach_episode b.

(** The [k] most recent elements of a log. *)
Definition most_recent {A : Type} (k : nat) (log : list A) : list A :=
  skipn (length log - k) log.

(** A machine record whose vectors have the dimensions of the spaces. *)
Definition well_shaped (m : Memory) (exp : MachineExperience) : Prop :=
  length (mach_observation exp) = length (observation_space m) /\
  length (mach_action exp) = length (action_space m) /\
  length (mach_next_observation exp) = length (observation_space m).

(** A machine record without not-a-number in the fields a batch reads. *)
Definition nan_free (exp : MachineExperience) : Prop :=
  any_isnan (mach_observation exp) = false /\
  any_isnan (mach_action exp) = false /\
  is_nan (mach_reward exp) = false /\
  any_isnan (mach_next_observation exp) = false.

(** The invariant of the two logs. *)
Definition aligned (m : Memory) : Prop :=
  length (experiences m) = length (machine_experiences m).

(** The configuration of a memory: everything but its logs. *)
Definition same_config (a b : Memory) : Prop :=
  observation_space a = observation_space b /\
  action_space a = action_space b /\
  reward_space a = reward_space b /\
  discount a = discount b /\
  memory_length a = memory_length b /\
  process_reward a = process_reward b /\
  process_return a = process_return b /\
  agent_stats a = agent_stats b.

(** ** Stand-ins for the collaborators, and small memories to run on *)

Module Stub.

(** A scaling in the manner of [Utils.scale_array]: every entry is placed
    between the bounds of its dimension. *)
Fixpoint scale_entries (a : vec) (space : Space) : vec :=
  match a, space with
  | x :: a', d :: space' =>
      ((x - low d) / (high d - low d))%float :: scale_entries a' space'
  | _, _ => a
  end.

Definition scale_array (a : vec) (space : Space) : result vec :=
  Ok (scale_entries a space).

Definition normalize (x lo hi : float) : result float :=
  Ok ((x - lo) / (hi - lo))%float.

(** The same scaling, asserting that it is never given the terminal marker. *)
Definition checked_scale_array (a : vec) (space : Space) : result vec :=
  assert (negb (is_terminal a)) ;;; scale_array a space.

(** A generator whose state is a counter. *)
Definition draw (g high size : nat) : list nat * nat :=
  (map (fun k => Nat.modulo (g + 7 * k) high) (seq 0 size), g + size).

Definition add_all := add_all scale_array normalize.

End Stub.

Module Demo.

Definition unit_dim : Dim := mk_dim 0 10.

(** Two observation dimensions, one action dimension, discount one half,
    a sampling window of two records, no processing. *)
Definition empty : Memory :=
  mk_memory [unit_dim; unit_dim] [unit_dim] (mk_dim 0 1)
    0.5%float 2 None None [] [] [].

Definition with_process_return (m : Memory) (p : option string) : Memory :=
  mk_memory (observation_space m) (action_space m) (reward_space m)
    (discount m) (memory_length m) (process_reward m) p
    (experiences m) (machine_experiences m) (agent_stats m).

Definition with_memory_length (m : Memory) (k : Z) : Memory :=
  mk_memory (observation_space m) (action_space m) (reward_space m)
    (discount m) k (process_reward m) (process_return m)
    (experiences m) (machine_experiences m) (agent_stats m).

Definition terminal_obs : vec := [terminal_marker; terminal_marker].

(** Step [t] of an episode of [n] steps, every reward being [r]. *)
Definition step_of (ep : Z) (n : nat) (r : float) (t : nat) : Experience :=
  mk_experience [Np.of_nat t; 1%float] [2%float] r
    (if Nat.eqb (t + 1) n then terminal_obs else [Np.of_nat (t + 1); 1%float])
    (Z.of_nat t) ep.

Definition episode_of (ep : Z) (n : nat) (r : float) : list Experience :=
  map (step_of ep n r) (seq 0 n).

(** One episode of three steps with reward one at every step. *)
Definition three_steps : Memory :=
  Stub.add_all empty (episode_of 0 3 1%float).

(** One episode of a single step. *)
Definition one_step : Memory :=
  Stub.add_all empty (episode_of 0 1 1%float).

(** Three episodes, of two steps, two steps and one step. *)
Definition three_episodes : Memory :=
  Stub.add_all empty
    (episode_of 0 2 1%float ++ episode_of 1 2 1%float ++ episode_of 2 1 1%float).

(** The single step under the 'min_max' policy, its return computed. *)
Definition one_step_min_max : Memory :=
  fst (calculate_returns (with_process_return one_step (Some "min_max"%string)) 0).

(** The three steps with their returns computed. *)
Definition three_steps_returns : Memory :=
  fst (calculate_returns three_steps 0).

(** A memory whose second observation dimension has equal bounds: the
    scaling of the stand-in divides zero by zero there. *)
Definition flat_dimension : Memory :=
  Stub.add_all
    (mk_memory [unit_dim; mk_dim 1 1] [unit_dim] (mk_dim 0 1)
       0.5%float 2 None None [] [] [])
    (episode_of 0 2 1%float).

(** Thirty episodes of one step; episode [k] earns the reward [k]. *)
Definition thirty_episodes : Memory :=
  Stub.add_all empty
    (map (fun k => step_of (Z.of_nat k) 1 (Np.of_nat k) 0) (seq 0 30)).

End Demo.

(** ** The rest of the module: construction, sequences of calls, rows *)

(** [Memory.__init__]: the configuration is stored and the logs are reset. *)
Definition init (observation_space action_space : Space) (reward_space : Dim)
    (discount : float) (memory_length : Z)
    (process_reward process_return : option string) : Memory :=
  reset (mk_memory observation_space action_space reward_space discount
           memory_length process_reward process_return [] [] []).

(** The two calls that change a memory. *)
Inductive Op : Set :=
| OpAdd (exp : Experience)
| OpReturns (episode_number : Z).

(** The episodes of the [add_experience] calls of a sequence, in order. *)
Definition added_episodes (ops : list Op) : list Z :=
  flat_map (fun op => match op with
                      | OpAdd exp => [episode exp]
                      | OpReturns _ => []
                      end) ops.

Section Calls.

Variable scale_array : vec -> Space -> result vec.
Variable normalize : float -> float -> float -> result float.

(** The memory after one call, whatever its outcome. *)
Definition apply_op (m : Memory) (op : Op) : Memory :=
  match op with
  | OpAdd exp => fst (add scale_array normalize m exp)
  | OpReturns episode_number => fst (calculate_returns m episode_number)
  end.

Definition run (m : Memory) (ops : list Op) : Memory :=
  fold_left apply_op ops m.

End Calls.

(** The two logs tell the same step and episode in every row. *)
Definition rows_match (m : Memory) : Prop :=
  map mach_episode (machine_experiences m) = map episode (experiences m) /\
  map mach_step (machine_experiences m) = map step (experiences m).

(** The rows of an episode, raw and machine record side by side, as
    [get_episode_batch] pairs them, and the action it reads from a row. *)
Definition episode_rows (m : Memory) (episode_number : Z)
    : list (Experience * MachineExperience) :=
  filter (fun row => in_episode episode_number (snd row))
    (combine (experiences m) (machine_experiences m)).

Definition row_action (scaled_actions : bool) (row : Experience * MachineExperience)
    : vec :=
  if scaled_actions then mach_action (snd row) else action (fst row).

(** A row that a batch can hold: vectors of the dimensions of the spaces,
    without not-a-number. *)
Definition row_fits (m : Memory) (scaled_actions : bool)
    (row : Experience * MachineExperience) : Prop :=
  length (mach_observation (snd row)) = length (observation_space m) /\
  length (row_action scaled_actions row) = length (action_space m) /\
  any_isnan (mach_observation (snd row)) = false /\
  any_isnan (row_action scaled_actions row) = false.

(** The same for a machine record read with its scaled action. *)
Definition record_fits (m : Memory) (exp : MachineExperience) : Prop :=
  length (mach_observation exp) = length (observation_space m) /\
  length (mach_action exp) = length (action_space m) /\
  any_isnan (mach_observation exp) = false /\
  any_isnan (mach_action exp) = false.

(** The sum that a grouped table holds for a key, if it has the key. *)
Definition group_total (k : Z) (groups : list (Z * float)) : option float :=
  option_map snd (find (fun g => Z.eqb (fst g) k) groups).

(** One more value added to the sum of a key, from zero when it is new. *)
Definition add_to_total (total : option float) (v : float) : option float :=
  Some (match total with Some s => s | None => 0 end + v)%float.

Module MoreDemo.

(** Episode 0 interrupted by a step of episode 1. *)
Definition interleaved : Memory :=
  Stub.add_all Demo.empty
    [Demo.step_of 0 2 1 0; Demo.step_of 1 1 1 0; Demo.step_of 0 2 1 1].

(** The three episodes under the 'min_max' policy. *)
Definition three_episodes_min_max : Memory :=
  Demo.with_process_return Demo.three_episodes (Some "min_max"%string).

Definition blank : MachineExperience :=
  mk_machine_experience [] [] 0 [] 0 0 None.

(** The same memory after [calculate_returns] for episode 0. *)
Definition lossy : Memory := fst (calculate_returns interleaved 0).

Definition with_process_reward (m : Memory) (p : option string) : Memory :=
  mk_memory (observation_space m) (action_space m) (reward_space m)
    (discount m) (memory_length m) p (process_return m)
    (experiences m) (machine_experiences m) (agent_stats m).

End MoreDemo.

(** ** The registry of environments *)

Module Register.

(** The classes the registry names. *)
Inductive EnvClass : Set :=
| Flex
| Battery
| CartPoleEnv
| PendulumEnv
| MountainCarEnv
| Game2048.

Definition env_register : list (string * EnvClass) :=
  [("flex", Flex); ("battery", Battery); ("cartpole-v0", CartPoleEnv);
   ("pendulum-v0", PendulumEnv); ("mountaincar-v0", MountainCarEnv);
   ("game", Game2048)]%string.

(** [env_register[key]] *)
Definition lookup (key : string) : option EnvClass :=
  option_map snd (find (fun entry => String.eqb (fst entry) key) env_register).

(** The outcome of [make_env]: the environment built, or the key that the
    registry does not hold. *)
Inductive made (E : Type) : Type :=
| Env (env : E)
| KeyError (key : string).

Arguments Env {E} env.
Arguments KeyError {E} key.

(** [make_env(env_id, **kwargs)]; [construct] stands for the call of the
    class found, whose code is in other modules. *)
Definition make_env {K E : Type} (construct : EnvClass -> K -> E)
    (env_id : string) (kwargs : K) : made E :=
  match lookup env_id with
  | Some env => Env (construct env kwargs)
  | None => KeyError env_id
  end.

End Register.

(** ** The tables, with the arithmetic of pandas left open *)

(** The keys of a grouped table: each key once, in increasing order. *)
Fixpoint insert_key (k : Z) (keys : list Z) : list Z :=
  match keys with
  | [] => [k]
  | k' :: rest =>
      if (k =? k')%Z then keys
      else if (k <? k')%Z then k :: keys
      else k' :: insert_key k rest
  end.

Definition group_keys (ks : list Z) : list Z :=
  fold_left (fun keys k => insert_key k keys) ks [].

(** The windows of the rows up to row [i], in row order: a rolling
    aggregation goes through them one after the other, and the last one is
    the window of row [i]. *)
Definition windows_upto (n window : nat) (center : bool) (i : nat)
    : list (nat * nat) :=
  map (Pd.window_bounds n window center) (seq 0 (S i)).

Section PandasArithmetic.

(** How pandas rounds a sum and what it does with a missing value has changed
    between its versions (plain or compensated sums, a sum kept from window
    to window).  So the two aggregations are taken as they come:
    [group_sum vs] is the sum it gives for the values [vs] of one group, in
    row order; [window_mean min_periods s windows] is the mean it gives for
    the last window of [windows], rows [start, stop) of the series [s],
    after it has gone through the windows before it. *)
Variable group_sum : list float -> float.
Variable window_mean : nat -> list float -> list (nat * nat) -> float.

(** [df.groupby('episode').sum()] on one column. *)
Definition groupby_sum_with (rows : list (Z * float)) : list (Z * float) :=
  map (fun k =>
         (k, group_sum (map snd (filter (fun row => Z.eqb (fst row) k) rows))))
      (group_keys (map fst rows)).

(** [s.rolling(window=window, min_periods=min_periods, center=center).mean()] *)
Definition rolling_mean_with (window min_periods : nat) (center : bool)
    (s : list float) : list float :=
  map (fun i => window_mean min_periods s (windows_upto (length s) window center i))
      (seq 0 (length s)).

(** [Memory.output_results] over these aggregations. *)
Definition output_results_with (m : Memory) : result Results :=
  assert (Nat.eqb (length (experiences m)) (length (machine_experiences m))) ;;;
  let df_stp := combine (experiences m) (machine_experiences m) in
  let groups :=
    groupby_sum_with (map (fun row => (episode (fst row), reward (fst row))) df_stp) in
  let rewards := map snd groups in
  let window := rolling_window (length groups) in
  Ok (mk_results df_stp
        (mk_episode_table (map fst groups) rewards (Pd.cummax rewards)
           (rolling_mean_with window 1 false rewards))
        (agent_stats m)).

End PandasArithmetic.

(** The aggregations of [Pd.groupby_sum] and [Pd.rolling_mean]: the plain sum
    from the left, [Np.sum], and the mean of the window summed afresh. *)
Definition plain_window_mean (min_periods : nat) (s : list float)
    (windows : list (nat * nat)) : float :=
  let (start, stop) := last windows (0, 0) in
  Pd.window_mean min_periods (firstn (stop - start) (skipn start s)).

(** * Properties *)

(** ** The two logs grow together *)

Section Alignment.

Variable scale_array : vec -> Space -> result vec.
Variable normalize : float -> float -> float -> result float.

Lemma add_experience_aligned m o a r no s ep :
  aligned m ->
  aligned (fst (add_experience scale_array normalize m o a r no s ep)).
Proof.
  unfold aligned, add_experience; intros H.
  destruct (make_machine_experience _ _ _ _) as [m_exp | e]; simpl; auto.
  rewrite !length_app, H; reflexivity.
Qed.

Lemma add_experience_appends m o a r no s ep m_exp :
  aligned m ->
  make_machine_experience scale_array normalize m (mk_experience o a r no s ep)
    = Ok m_exp ->
  add_experience scale_array normalize m o a r no s ep =
    (with_logs m (experiences m ++ [mk_experience o a r no s ep])
       (machine_experiences m ++ [m_exp]), Ok tt).
Proof.
  unfold aligned, add_experience; intros H ->; simpl.
  rewrite !length_app, H, Nat.eqb_refl. reflexivity.
Qed.

Lemma add_all_aligned calls : forall m,
  aligned m -> aligned (add_all scale_array normalize m calls).
Proof.
  induction calls as [| exp calls IH]; intros m H; simpl; auto.
  apply IH. unfold add. now apply add_experience_aligned.
Qed.

(** C2. From [reset], after each call of a sequence of [add_experience]
    calls the raw log and the machine log have the same length. *)
Theorem add_experience_logs_same_length (m : Memory) (calls : list Experience) (k : nat) :
  let m' := add_all scale_array normalize (reset m) (firstn k calls) in
  length (experiences m') = length (machine_experiences m').
Proof.
  apply add_all_aligned. reflexivity.
Qed.

End Alignment.

(** ** The terminal marker is scaled like any observation *)

Section Terminal.

Variable scale_array : vec -> Space -> result vec.
Variable normalize : float -> float -> float -> result float.

(** [exp[3].all()] is a boolean, and no boolean equals -999999. *)
Lemma terminal_test_never_holds (next_obs : vec) :
  bool_eq_int (Np.all next_obs) (-999999) = false.
Proof.
  unfold bool_eq_int. destruct (Np.all next_obs); reflexivity.
Qed.

(** So the next observation always goes through the scaling, with the
    space of the observation. *)
Lemma make_machine_experience_scales_next (m : Memory) (exp : Experience)
    (m_exp : MachineExperience) :
  make_machine_experience scale_array normalize m exp = Ok m_exp ->
  scale_array (observation exp) (observation_space m) = Ok (mach_observation m_exp) /\
  scale_array (next_observation exp) (observation_space m)
    = Ok (mach_next_observation m_exp).
Proof.
  unfold make_machine_experience.
  rewrite terminal_test_never_holds.
  destruct (scale_array (observation exp) _) as [so |]; simpl; [| discriminate].
  destruct (scale_array (action exp) _) as [sa |]; simpl; [| discriminate].
  destruct (if eq_str _ _ then _ else _) as [rw |]; simpl; [| discriminate].
  destruct (scale_array (next_observation exp) _) as [sn |]; simpl; [| discriminate].
  intros [= <-]. split; reflexivity.
Qed.

End Terminal.

(** C3. The last step of an episode carries the terminal marker as its next
    observation; [make_machine_experience] hands it to the scaling function:
    a scaling that refuses the marker raises, and the plain scaling stores a
    scaled marker in the machine record. *)
Theorem make_machine_experience_scales_terminal_marker :
  let exp := Demo.step_of 0 1 1 0 in
  is_terminal (next_observation exp) = true /\
  make_machine_experience Stub.checked_scale_array Stub.normalize Demo.empty exp
    = Raise AssertionError /\
  exists m_exp,
    make_machine_experience Stub.scale_array Stub.normalize Demo.empty exp = Ok m_exp /\
    is_terminal (mach_next_observation m_exp) = false /\
    Stub.scale_array (next_observation exp) (observation_space Demo.empty)
      = Ok (mach_next_observation m_exp).
Proof.
  split; [reflexivity |]. split; [reflexivity |].
  eexists. split; [reflexivity |]. split; reflexivity.
Qed.

(** ** Monte Carlo returns *)

Lemma fold_returns_step (discount : float) (exps : list MachineExperience) :
  fold_left (returns_step discount) (rev exps) (0%float, []) =
  (hd 0%float (backward_returns discount (map mach_reward exps)),
   backward_returns discount (map mach_reward exps)).
Proof.
  induction exps as [| exp exps IH]; simpl; [reflexivity |].
  rewrite fold_left_app, IH. reflexivity.
Qed.

(** The loop of the code computes the returns of the specification. *)
Lemma discounted_returns_backward (discount : float) (exps : list MachineExperience) :
  discounted_returns discount exps =
  backward_returns discount (map mach_reward exps).
Proof.
  unfold discounted_returns. now rewrite fold_returns_step.
Qed.

Lemma length_backward_returns (discount : float) (rewards : list float) :
  length (backward_returns discount rewards) = length rewards.
Proof.
  induction rewards; simpl; congruence.
Qed.

(** Scaling keeps the number of returns, and can only fail on an episode
    without records. *)
Lemma scale_returns_ok (p : option string) (rtns : list float) :
  rtns <> [] ->
  exists scaled, scale_returns p rtns = Ok scaled /\ length scaled = length rtns.
Proof.
  intros Hne. unfold scale_returns.
  set (r1 := if eq_str p "scale_only" then _ else rtns).
  assert (L1 : length r1 = length rtns)
    by (subst r1; destruct (eq_str p "scale_only"); now rewrite ?length_map).
  set (r2 := if eq_str p "mean_scale" then _ else r1).
  assert (L2 : length r2 = length rtns)
    by (subst r2; destruct (eq_str p "mean_scale"); now rewrite ?length_map).
  destruct (eq_str p "min_max").
  - destruct r2 as [| x r2']; [destruct rtns; [congruence | discriminate] |].
    simpl. eexists. split; [reflexivity |].
    rewrite <- L2. simpl. now rewrite length_map.
  - eexists; split; [reflexivity | assumption].
Qed.

(** Without a recognised policy the returns are left as they are. *)
Lemma scale_returns_passthrough (p : option string) (rtns : list float) :
  p <> Some "scale_only"%string ->
  p <> Some "mean_scale"%string ->
  p <> Some "min_max"%string ->
  scale_returns p rtns = Ok rtns.
Proof.
  intros H1 H2 H3. unfold scale_returns.
  assert (E : forall s, p <> Some s -> eq_str p s = false).
  { intros s Hs. destruct p as [t |]; simpl; [| reflexivity].
    apply String.eqb_neq. congruence. }
  now rewrite (E _ H1), (E _ H2), (E _ H3).
Qed.

(** ** Masks and index ranges *)

Section Masks.

Context {A : Type} (f : A -> bool).

Lemma boolean_index_filter (l : list A) :
  boolean_index (map f l) l = filter f l.
Proof.
  induction l as [| x l IH]; simpl; [reflexivity |].
  destruct (f x); now rewrite IH.
Qed.

Lemma boolean_index_app (l1 l2 : list A) (B : Type) (i1 i2 : list B) :
  length i1 = length l1 ->
  boolean_index (map f (l1 ++ l2)) (i1 ++ i2) =
  boolean_index (map f l1) i1 ++ boolean_index (map f l2) i2.
Proof.
  revert i1. induction l1 as [| x l1 IH]; intros [| i i1] H; simpl in *;
    try discriminate; [reflexivity |].
  injection H as H. rewrite (IH _ H). now destruct (f x).
Qed.

Lemma indices_app (k : nat) (l1 l2 : list A) :
  boolean_index (map f (l1 ++ l2)) (seq k (length (l1 ++ l2))) =
  boolean_index (map f l1) (seq k (length l1)) ++
  boolean_index (map f l2) (seq (k + length l1) (length l2)).
Proof.
  rewrite length_app, seq_app. apply boolean_index_app. now rewrite length_seq.
Qed.

Lemma indices_none (k : nat) (l : list A) :
  filter f l = [] ->
  boolean_index (map f l) (seq k (length l)) = [].
Proof.
  revert k. induction l as [| x l IH]; intros k H; simpl in *; [reflexivity |].
  destruct (f x); [discriminate | now apply IH].
Qed.

Lemma indices_all (k : nat) (l : list A) :
  filter f l = l ->
  boolean_index (map f l) (seq k (length l)) = seq k (length l).
Proof.
  revert k. induction l as [| x l IH]; intros k H; simpl in *; [reflexivity |].
  destruct (f x) eqn:E.
  - injection H as H. now rewrite IH.
  - exfalso. assert (In x (filter f l)) by (rewrite H; now left).
    apply filter_In in H0. destruct H0 as [_ H0]. congruence.
Qed.

Lemma indices_nil_filter (k : nat) (l : list A) :
  boolean_index (map f l) (seq k (length l)) = [] -> filter f l = [].
Proof.
  revert k. induction l as [| x l IH]; intros k H; simpl in *; [reflexivity |].
  destruct (f x); [discriminate | now apply IH with (k := S k)].
Qed.

(** Before the first index of the mask no element is selected. *)
Lemma indices_first (l : list A) : forall (k start : nat) (rest : list nat),
  boolean_index (map f l) (seq k (length l)) = start :: rest ->
  k <= start /\ filter f (firstn (start - k) l) = [].
Proof.
  induction l as [| x l IH]; intros k start rest H; simpl in *; [discriminate |].
  destruct (f x) eqn:E.
  - injection H as <- _. rewrite Nat.sub_diag. split; [lia | reflexivity].
  - apply IH in H. destruct H as [Hk Hf]. split; [lia |].
    replace (start - k) with (S (start - S k)) by lia.
    simpl. now rewrite E.
Qed.

(** After the last index of the mask no element is selected. *)
Lemma indices_last (l : list A) : forall (k : nat),
  boolean_index (map f l) (seq k (length l)) <> [] ->
  k <= last (boolean_index (map f l) (seq k (length l))) 0 /\
  filter f (skipn (last (boolean_index (map f l) (seq k (length l))) 0 + 1 - k) l) = [].
Proof.
  induction l as [| x l IH]; intros k H; simpl in *; [congruence |].
  destruct (boolean_index (map f l) (seq (S k) (length l))) as [| j js] eqn:Ej.
  - destruct (f x); [| congruence]. simpl. split; [lia |].
    replace (k + 1 - k) with 1 by lia. simpl.
    now apply indices_nil_filter with (k := S k).
  - assert (Hne : j :: js <> []) by discriminate.
    rewrite <- Ej in Hne. specialize (IH (S k) Hne). rewrite Ej in IH.
    destruct IH as [Hk Hf].
    assert (Hl : last (if f x then k :: j :: js else j :: js) 0 = last (j :: js) 0)
      by (destruct (f x); reflexivity).
    rewrite Hl. split; [lia |].
    replace (last (j :: js) 0 + 1 - k) with (S (last (j :: js) 0 + 1 - S k)) by lia.
    exact Hf.
Qed.

Lemma indices_first_le_last (l : list A) : forall (k start : nat) (rest : list nat),
  boolean_index (map f l) (seq k (length l)) = start :: rest ->
  start <= last (start :: rest) 0.
Proof.
  induction l as [| x l IH]; intros k start rest H; simpl in H; [discriminate |].
  destruct (f x); [| now apply IH in H].
  injection H as <- Hr. destruct rest as [| r rest]; [simpl; lia |].
  change (k <= last (r :: rest) 0).
  assert (Hne : boolean_index (map f l) (seq (S k) (length l)) <> [])
    by (rewrite Hr; discriminate).
  destruct (indices_last l (S k) Hne) as [Hk _]. rewrite Hr in Hk. lia.
Qed.

(** A slice assignment between the first and the last selected index
    replaces all the selected elements. *)
Lemma filter_assign_slice (l new : list A) (start : nat) (rest : list nat) :
  boolean_index (map f l) (seq 0 (length l)) = start :: rest ->
  filter f (assign_slice start (last (start :: rest) 0 + 1) new l) = filter f new.
Proof.
  intros H. unfold assign_slice.
  destruct (indices_first l 0 H) as [_ Hpre].
  assert (Hne : boolean_index (map f l) (seq 0 (length l)) <> [])
    by (rewrite H; discriminate).
  destruct (indices_last l 0 Hne) as [_ Hpost]. rewrite H in Hpost.
  rewrite Nat.sub_0_r in Hpre, Hpost.
  pose proof (indices_first_le_last l 0 H) as Hle.
  rewrite Nat.max_r by lia.
  rewrite !filter_app, Hpre, Hpost, app_nil_r. reflexivity.
Qed.

End Masks.

(** ** What [calculate_returns] writes *)

Lemma episode_mask_of_nonempty (log : list MachineExperience) (ep : Z) :
  log <> [] -> episode_mask_of log ep = Ok (map (in_episode ep) log).
Proof.
  destruct log; [congruence | reflexivity].
Qed.

Lemma fill_returns_same (recs : list MachineExperience) : forall rtns,
  length rtns = length recs ->
  Forall2 same_but_return recs (fill_returns recs rtns) /\
  map discounted_return (fill_returns recs rtns) = map Some rtns.
Proof.
  unfold fill_returns.
  induction recs as [| exp recs IH]; intros [| r rtns] H; simpl in *;
    try discriminate; [split; [constructor | reflexivity] |].
  injection H as H. destruct (IH _ H) as [IH1 IH2]. split.
  - constructor; [repeat split | exact IH1].
  - now rewrite IH2.
Qed.

Lemma fill_returns_in_episode (ep : Z) (recs : list MachineExperience) : forall rtns,
  filter (in_episode ep) recs = recs ->
  filter (in_episode ep) (fill_returns recs rtns) = fill_returns recs rtns.
Proof.
  unfold fill_returns.
  induction recs as [| exp recs IH]; intros [| r rtns] H; simpl in *; try reflexivity.
  unfold in_episode at 1. simpl.
  destruct (in_episode ep exp) eqn:E; unfold in_episode in E; rewrite E.
  - injection H as H. now rewrite IH.
  - exfalso. assert (Hin : In exp (filter (in_episode ep) recs)) by (rewrite H; now left).
    apply filter_In in Hin. unfold in_episode in Hin. destruct Hin; congruence.
Qed.

Lemma filter_idem {A : Type} (f : A -> bool) (l : list A) :
  filter f (filter f l) = filter f l.
Proof.
  induction l as [| x l IH]; simpl; [reflexivity |].
  destruct (f x) eqn:E; simpl; [rewrite E; now rewrite IH | exact IH].
Qed.

(** The log that [calculate_returns] computes for an episode with records. *)
Lemma calculate_returns_log_present (m : Memory) (ep : Z) :
  episode_records m ep <> [] ->
  exists rtns start rest,
    scale_returns (process_return m)
      (backward_returns (discount m) (map mach_reward (episode_records m ep))) = Ok rtns /\
    length rtns = length (episode_records m ep) /\
    boolean_index (map (in_episode ep) (machine_experiences m))
      (seq 0 (length (machine_experiences m))) = start :: rest /\
    calculate_returns_log m ep =
      Ok (assign_slice start (last (start :: rest) 0 + 1)
            (fill_returns (episode_records m ep) rtns) (machine_experiences m)).
Proof.
  unfold episode_records, calculate_returns_log. intros Hne.
  assert (Hlog : machine_experiences m <> []) by (intros E; rewrite E in Hne; now apply Hne).
  rewrite (episode_mask_of_nonempty ep Hlog). simpl.
  rewrite boolean_index_filter, discounted_returns_backward.
  set (recs := filter (in_episode ep) (machine_experiences m)) in *.
  destruct (@scale_returns_ok (process_return m)
              (backward_returns (discount m) (map mach_reward recs))) as [rtns [Hs Hl]].
  { intros E. apply (f_equal (@length float)) in E.
    rewrite length_backward_returns, length_map in E.
    destruct recs; [congruence | discriminate]. }
  rewrite length_backward_returns, length_map in Hl.
  rewrite Hs. simpl. rewrite Hl, Nat.eqb_refl. simpl.
  destruct (boolean_index (map (in_episode ep) (machine_experiences m))
              (seq 0 (length (machine_experiences m)))) as [| start rest] eqn:Ei.
  - apply indices_nil_filter in Ei. contradiction.
  - exists rtns, start, rest. repeat split; auto.
Qed.

(** An episode without records makes [calculate_returns] raise. *)
Lemma calculate_returns_log_absent (m : Memory) (ep : Z) :
  episode_records m ep = [] -> raises (calculate_returns_log m ep).
Proof.
  unfold episode_records, calculate_returns_log, raises. intros Hnil.
  destruct (machine_experiences m) as [| exp log] eqn:El; [now eexists |].
  rewrite <- El in *.
  rewrite episode_mask_of_nonempty by (rewrite El; discriminate). simpl.
  rewrite boolean_index_filter, Hnil. unfold discounted_returns. simpl.
  rewrite (indices_none _ 0 _ Hnil).
  unfold scale_returns.
  destruct (eq_str (process_return m) "scale_only"),
           (eq_str (process_return m) "mean_scale"),
           (eq_str (process_return m) "min_max"); simpl; now eexists.
Qed.

Lemma calculate_returns_keeps (m : Memory) (ep : Z) :
  experiences (fst (calculate_returns m ep)) = experiences m /\
  same_config (fst (calculate_returns m ep)) m.
Proof.
  unfold calculate_returns.
  destruct (calculate_returns_log m ep); simpl; repeat split; reflexivity.
Qed.

(** C1. For an episode with records, [calculate_returns] gives step [t] the
    return [r_t + discount * R_(t+1)], with zero after the last step, scaled
    by the policy of the memory, one return per step and in log order; three
    steps of reward 1 at discount 0.5 and without policy get the returns
    1.75, 1.5 and 1. *)
Theorem calculate_returns_backward_recursion :
  (forall (m : Memory) (ep : Z),
     episode_records m ep <> [] ->
     exists rtns,
       discounted_returns (discount m) (episode_records m ep)
         = backward_returns (discount m) (map mach_reward (episode_records m ep)) /\
       scale_returns (process_return m)
         (discounted_returns (discount m) (episode_records m ep)) = Ok rtns /\
       length rtns = length (episode_records m ep) /\
       snd (calculate_returns m ep) = Ok tt /\
       Forall2 same_but_return (episode_records m ep)
         (episode_records (fst (calculate_returns m ep)) ep) /\
       map discounted_return (episode_records (fst (calculate_returns m ep)) ep)
         = map Some rtns) /\
  (let m := Demo.three_steps in
   map mach_reward (episode_records m 0) = [1; 1; 1]%float /\
   discount m = 0.5%float /\
   process_return m = None /\
   map discounted_return (episode_records (fst (calculate_returns m 0)) 0)
     = [Some 1.75; Some 1.5; Some 1]%float).
Proof.
  split.
  - intros m ep Hne.
    destruct (calculate_returns_log_present m ep Hne) as (rtns & start & rest & Hs & Hl & Hi & Hc).
    exists rtns. split; [apply discounted_returns_backward |].
    rewrite discounted_returns_backward.
    split; [exact Hs |]. split; [exact Hl |].
    unfold calculate_returns. rewrite Hc. simpl. split; [reflexivity |].
    unfold episode_records at 2 4. simpl.
    rewrite (filter_assign_slice _ _ _ Hi).
    rewrite fill_returns_in_episode by apply filter_idem.
    now apply fill_returns_same.
  - repeat split; reflexivity.
Qed.

Lemma calculate_returns_backward_recursion_witness :
  episode_records Demo.three_steps 0 <> [] /\
  exists rtns,
    discounted_returns (discount Demo.three_steps) (episode_records Demo.three_steps 0)
      = backward_returns (discount Demo.three_steps)
          (map mach_reward (episode_records Demo.three_steps 0)) /\
    scale_returns (process_return Demo.three_steps)
      (discounted_returns (discount Demo.three_steps)
         (episode_records Demo.three_steps 0)) = Ok rtns /\
    length rtns = length (episode_records Demo.three_steps 0) /\
    snd (calculate_returns Demo.three_steps 0) = Ok tt /\
    Forall2 same_but_return (episode_records Demo.three_steps 0)
      (episode_records (fst (calculate_returns Demo.three_steps 0)) 0) /\
    map discounted_return (episode_records (fst (calculate_returns Demo.three_steps 0)) 0)
      = map Some rtns.
Proof.
  assert (H : episode_records Demo.three_steps 0 <> []) by (vm_compute; discriminate).
  split; [exact H |].
  exact (proj1 calculate_returns_backward_recursion Demo.three_steps 0%Z H).
Defined.

(** C9. When [process_return] is none of 'scale_only', 'mean_scale' and
    'min_max', [calculate_returns] writes the discounted returns of its loop
    as they are into the records of the episode. *)
Theorem calculate_returns_unrecognized_policy (m : Memory) (ep : Z) :
  process_return m <> Some "scale_only"%string ->
  process_return m <> Some "mean_scale"%string ->
  process_return m <> Some "min_max"%string ->
  episode_records m ep <> [] ->
  snd (calculate_returns m ep) = Ok tt /\
  map discounted_return (episode_records (fst (calculate_returns m ep)) ep)
    = map Some (discounted_returns (discount m) (episode_records m ep)).
Proof.
  intros H1 H2 H3 Hne.
  destruct (calculate_returns_log_present m ep Hne) as (rtns & start & rest & Hs & Hl & Hi & Hc).
  rewrite scale_returns_passthrough in Hs by assumption.
  injection Hs as <-.
  unfold calculate_returns. rewrite Hc. simpl. split; [reflexivity |].
  unfold episode_records at 1. simpl.
  rewrite (filter_assign_slice _ _ _ Hi).
  rewrite fill_returns_in_episode by apply filter_idem.
  rewrite discounted_returns_backward.
  now apply fill_returns_same.
Qed.

Lemma calculate_returns_unrecognized_policy_witness :
  let m := Demo.with_process_return Demo.three_steps (Some "standardise"%string) in
  snd (calculate_returns m 0) = Ok tt /\
  map discounted_return (episode_records (fst (calculate_returns m 0)) 0)
    = map Some (discounted_returns (discount m) (episode_records m 0)).
Proof.
  apply calculate_returns_unrecognized_policy;
    solve [ discriminate | vm_compute; discriminate ].
Defined.

(** ** The frame of [calculate_returns] *)

Lemma filter_none_of (ep : Z) (l : list MachineExperience) :
  Forall (fun exp => mach_episode exp <> ep) l -> filter (in_episode ep) l = [].
Proof.
  induction 1 as [| exp l H _ IH]; simpl; [reflexivity |].
  unfold in_episode at 1. apply Z.eqb_neq in H. now rewrite H.
Qed.

Lemma filter_all_of (ep : Z) (l : list MachineExperience) :
  Forall (fun exp => mach_episode exp = ep) l -> filter (in_episode ep) l = l.
Proof.
  induction 1 as [| exp l H _ IH]; simpl; [reflexivity |].
  unfold in_episode at 1. apply Z.eqb_eq in H. now rewrite H, IH.
Qed.

Lemma last_seq (a n d : nat) : last (seq a (S n)) d = a + n.
Proof.
  revert a. induction n as [| n IH]; intros a; [simpl; lia |].
  change (last (seq a (S (S n))) d) with (last (seq (S a) (S n)) d).
  rewrite IH. lia.
Qed.

Lemma assign_slice_middle {A : Type} (pre mid post new : list A) :
  assign_slice (length pre) (length pre + length mid) new (pre ++ mid ++ post)
  = pre ++ new ++ post.
Proof.
  unfold assign_slice. rewrite Nat.max_r by lia.
  rewrite firstn_app, firstn_all, Nat.sub_diag, firstn_O, app_nil_r.
  rewrite skipn_app, skipn_all2 by lia.
  replace (length pre + length mid - length pre) with (length mid) by lia.
  rewrite skipn_app, skipn_all, Nat.sub_diag. reflexivity.
Qed.

(** C6. When the records of an episode are the contiguous range [mid] of the
    machine log, [calculate_returns] changes nothing but the returns of the
    records of [mid]: the records before and after the range, the other
    fields of the records in it, the raw log, the configuration and the
    length of the log are as they were. *)
Theorem calculate_returns_frame (m : Memory) (ep : Z)
    (pre mid post : list MachineExperience) :
  machine_experiences m = pre ++ mid ++ post ->
  Forall (fun exp => mach_episode exp = ep) mid ->
  Forall (fun exp => mach_episode exp <> ep) pre ->
  Forall (fun exp => mach_episode exp <> ep) post ->
  exists mid',
    machine_experiences (fst (calculate_returns m ep)) = pre ++ mid' ++ post /\
    Forall2 same_but_return mid mid' /\
    length (machine_experiences (fst (calculate_returns m ep)))
      = length (machine_experiences m) /\
    experiences (fst (calculate_returns m ep)) = experiences m /\
    same_config (fst (calculate_returns m ep)) m /\
    (mid <> [] -> snd (calculate_returns m ep) = Ok tt) /\
    (mid = [] -> mid' = [] /\ raises (snd (calculate_returns m ep))).
Proof.
  intros Hlog Hmid Hpre Hpost.
  apply filter_all_of in Hmid. apply filter_none_of in Hpre, Hpost.
  assert (Hrecs : episode_records m ep = mid).
  { unfold episode_records. rewrite Hlog, !filter_app, Hpre, Hmid, Hpost.
    now rewrite app_nil_r. }
  destruct (calculate_returns_keeps m ep) as [Hexp Hcfg].
  destruct mid as [| x mid0] eqn:Emid.
  - exists []. destruct (calculate_returns_log_absent m ep Hrecs) as [e He].
    unfold calculate_returns in *. rewrite He in *. simpl.
    repeat split; auto; try congruence. now exists e.
  - rewrite <- Emid in *.
    assert (Hne : episode_records m ep <> []) by (rewrite Hrecs, Emid; discriminate).
    destruct (calculate_returns_log_present m ep Hne) as (rtns & start & rest & Hs & Hl & Hi & Hc).
    rewrite Hlog in Hi.
    rewrite indices_app, (indices_none _ _ _ Hpre) in Hi.
    rewrite indices_app, (indices_all _ _ Hmid), (indices_none _ _ _ Hpost) in Hi.
    rewrite app_nil_r in Hi. simpl in Hi.
    assert (Hstart : start = length pre).
    { rewrite Emid in Hi. simpl in Hi. congruence. }
    assert (Hstop : last (start :: rest) 0 + 1 = length pre + length mid).
    { rewrite <- Hi, Emid. simpl length. rewrite last_seq. lia. }
    rewrite Hstop, Hstart, Hlog, assign_slice_middle, Hrecs in Hc.
    rewrite Hrecs in Hl.
    destruct (fill_returns_same mid rtns Hl) as [Hsame Hret].
    exists (fill_returns mid rtns).
    unfold calculate_returns in *. rewrite Hc in *. simpl.
    repeat split; auto; try congruence.
    rewrite Hlog, !length_app.
    apply Forall2_length in Hsame. lia.
Qed.

Lemma calculate_returns_frame_witness :
  let m := Demo.three_episodes in
  let pre := firstn 2 (machine_experiences m) in
  let mid := firstn 2 (skipn 2 (machine_experiences m)) in
  let post := skipn 4 (machine_experiences m) in
  exists mid',
    machine_experiences (fst (calculate_returns m 1)) = pre ++ mid' ++ post /\
    Forall2 same_but_return mid mid' /\
    length (machine_experiences (fst (calculate_returns m 1)))
      = length (machine_experiences m) /\
    experiences (fst (calculate_returns m 1)) = experiences m /\
    same_config (fst (calculate_returns m 1)) m /\
    (mid <> [] -> snd (calculate_returns m 1) = Ok tt) /\
    (mid = [] -> mid' = [] /\ raises (snd (calculate_returns m 1))).
Proof.
  apply calculate_returns_frame.
  - reflexivity.
  - vm_compute. repeat constructor.
  - vm_compute. repeat constructor; discriminate.
  - vm_compute. repeat constructor; discriminate.
Defined.

(** ** Episode batches *)

Lemma boolean_index_none {A B : Type} (f : A -> bool) (l : list A) : forall (a : list B),
  filter f l = [] -> boolean_index (map f l) a = [].
Proof.
  induction l as [| x l IH]; intros a H; simpl in *; [reflexivity |].
  destruct a as [| y a]; [reflexivity |].
  destruct (f x); [discriminate | now apply IH].
Qed.

Lemma reshape_infer_empty {A : Type} (cols : nat) :
  0 < cols -> reshape_infer cols (@nil A) = Ok (mk_ndarray 0 cols []).
Proof.
  destruct cols as [| c]; [lia |]. intros _. unfold reshape_infer.
  change (length (@nil A)) with 0.
  now rewrite Nat.Div0.mod_0_l, Nat.Div0.div_0_l.
Qed.

(** C10. On a memory whose logs are not empty and of equal lengths, and whose
    spaces have a dimension, [get_episode_batch] for an episode number that
    no record carries returns three arrays without rows, of shapes
    (0, observation_dim), (0, action_dim) and (0, 1). *)
Theorem get_episode_batch_unknown_episode (m : Memory) (ep : Z) (scaled_actions : bool) :
  machine_experiences m <> [] ->
  aligned m ->
  0 < length (observation_space m) ->
  0 < length (action_space m) ->
  Forall (fun exp => mach_episode exp <> ep) (machine_experiences m) ->
  get_episode_batch m ep scaled_actions =
    Ok (mk_ndarray 0 (length (observation_space m)) [],
        mk_ndarray 0 (length (action_space m)) [],
        mk_ndarray 0 1 []).
Proof.
  intros Hne Hal Hobs Hact Hnone. apply filter_none_of in Hnone.
  unfold get_episode_batch, episode_arrays.
  rewrite Hal, Nat.eqb_refl. simpl.
  rewrite (episode_mask_of_nonempty ep Hne). simpl.
  rewrite !(boolean_index_none _ _ _ Hnone). simpl.
  unfold Np.array. simpl.
  rewrite !reshape_infer_empty by assumption. reflexivity.
Qed.

Lemma get_episode_batch_unknown_episode_witness :
  get_episode_batch Demo.three_steps_returns 7 true =
    Ok (mk_ndarray 0 2 [], mk_ndarray 0 1 [], mk_ndarray 0 1 []).
Proof.
  apply (@get_episode_batch_unknown_episode Demo.three_steps_returns 7%Z true).
  - vm_compute. discriminate.
  - reflexivity.
  - vm_compute. lia.
  - vm_compute. lia.
  - vm_compute. repeat constructor; discriminate.
Defined.

(** ** Not-a-number checks *)

Lemma assert_not_nan_ok (a : ndarray float) :
  any_isnan (data a) = false -> assert_not_nan a = Ok tt.
Proof.
  unfold assert_not_nan. now intros ->.
Qed.

Lemma assert_not_nan_raise (a : ndarray float) :
  any_isnan (data a) = true -> assert_not_nan a = Raise AssertionError.
Proof.
  unfold assert_not_nan. now intros ->.
Qed.

Lemma assert_not_nan_inv (a : ndarray float) (u : unit) :
  assert_not_nan a = Ok u -> any_isnan (data a) = false.
Proof.
  unfold assert_not_nan. destruct (any_isnan (data a)); [discriminate | reflexivity].
Qed.

Lemma all_set_some (returns : list (option float)) : forall xs,
  all_set returns = Some xs -> returns = map Some xs.
Proof.
  induction returns as [| r returns IH]; intros xs H; simpl in H.
  - now injection H as <-.
  - destruct r as [x |]; [| discriminate].
    destruct (all_set returns) as [xs' |]; [| discriminate].
    injection H as <-. simpl. now rewrite (IH xs').
Qed.

Lemma all_set_map_some (xs : list float) : all_set (map Some xs) = Some xs.
Proof.
  induction xs as [| x xs IH]; simpl; [reflexivity | now rewrite IH].
Qed.

Lemma any_isnan_in (xs : list float) (x : float) :
  In x xs -> is_nan x = true -> any_isnan xs = true.
Proof.
  intros Hin Hx. apply existsb_exists. now exists x.
Qed.

Lemma assert_returns_not_nan_inv (r : ndarray (option float)) (r' : ndarray float) :
  assert_returns_not_nan r = Ok r' ->
  data r = map Some (data r') /\ nrows r' = nrows r /\ ncols r' = ncols r /\
  any_isnan (data r') = false.
Proof.
  unfold assert_returns_not_nan.
  destruct (all_set (data r)) as [xs |] eqn:E; [| discriminate].
  unfold assert. destruct (any_isnan xs) eqn:En; simpl; [discriminate |].
  intros [= <-]. simpl. apply all_set_some in E. auto.
Qed.

Lemma assert_returns_not_nan_raise (r : ndarray (option float)) (x : float) :
  In (Some x) (data r) -> is_nan x = true -> raises (assert_returns_not_nan r).
Proof.
  intros Hin Hx. unfold assert_returns_not_nan, raises.
  destruct (all_set (data r)) as [xs |] eqn:E; [| now eexists].
  apply all_set_some in E. rewrite E in Hin.
  apply in_map_iff in Hin. destruct Hin as (y & [= ->] & Hy).
  rewrite (any_isnan_in _ _ Hy Hx). simpl. now eexists.
Qed.

(** C7. [get_episode_batch] and [get_random_batch] raise when one of the
    arrays they have built holds a not-a-number, and the arrays they return
    are the ones they have built, none of them holding a not-a-number. *)
Theorem batches_reject_nan :
  (forall (m : Memory) (ep : Z) (scaled_actions : bool) o a r,
     episode_arrays m ep scaled_actions = Ok (o, a, r) ->
     any_isnan (data o) = true \/ any_isnan (data a) = true \/
       (exists x, In (Some x) (data r) /\ is_nan x = true) ->
     raises (get_episode_batch m ep scaled_actions)) /\
  (forall (m : Memory) (ep : Z) (scaled_actions : bool) o a r,
     get_episode_batch m ep scaled_actions = Ok (o, a, r) ->
     (exists r0, episode_arrays m ep scaled_actions = Ok (o, a, r0) /\
                 data r0 = map Some (data r)) /\
     any_isnan (data o) = false /\ any_isnan (data a) = false /\
     any_isnan (data r) = false) /\
  (forall (RandomState : Type) (draw : RandomState -> nat -> nat -> list nat * RandomState)
          (m : Memory) (batch_size : Z) (g g' : RandomState) o a r n,
     random_arrays draw m batch_size g = (Ok (o, a, r, n), g') ->
     any_isnan (data o) = true \/ any_isnan (data a) = true \/
       any_isnan (data r) = true \/ any_isnan (data n) = true ->
     get_random_batch draw m batch_size g = (Raise AssertionError, g')) /\
  (forall (RandomState : Type) (draw : RandomState -> nat -> nat -> list nat * RandomState)
          (m : Memory) (batch_size : Z) (g g' : RandomState) o a r n,
     get_random_batch draw m batch_size g = (Ok (o, a, r, n), g') ->
     random_arrays draw m batch_size g = (Ok (o, a, r, n), g') /\
     any_isnan (data o) = false /\ any_isnan (data a) = false /\
     any_isnan (data r) = false /\ any_isnan (data n) = false).
Proof.
  repeat apply conj.
  - intros m ep sa o a r Harr Hnan. unfold get_episode_batch. rewrite Harr. simpl.
    destruct (any_isnan (data o)) eqn:Eo.
    { rewrite (assert_not_nan_raise _ Eo). now eexists. }
    rewrite (assert_not_nan_ok _ Eo). simpl.
    destruct (any_isnan (data a)) eqn:Ea.
    { rewrite (assert_not_nan_raise _ Ea). now eexists. }
    rewrite (assert_not_nan_ok _ Ea). simpl.
    destruct Hnan as [H | [H | (x & Hin & Hx)]]; try discriminate.
    destruct (assert_returns_not_nan_raise _ _ Hin Hx) as [e He].
    rewrite He. now eexists.
  - intros m ep sa o a r. unfold get_episode_batch.
    destruct (episode_arrays m ep sa) as [[[o0 a0] r0] | e]; simpl; [| discriminate].
    destruct (assert_not_nan o0) as [u |] eqn:Eo; simpl; [| discriminate].
    destruct (assert_not_nan a0) as [u' |] eqn:Ea; simpl; [| discriminate].
    destruct (assert_returns_not_nan r0) as [r' |] eqn:Er; simpl; [| discriminate].
    intros [= <- <- <-].
    apply assert_not_nan_inv in Eo, Ea.
    apply assert_returns_not_nan_inv in Er. destruct Er as (Hd & _ & _ & Hr).
    repeat split; auto. now exists r0.
  - intros RS draw m bs g g' o a r n Harr Hnan. unfold get_random_batch.
    rewrite Harr. simpl. f_equal.
    destruct (any_isnan (data o)) eqn:Eo.
    { now rewrite (assert_not_nan_raise _ Eo). }
    rewrite (assert_not_nan_ok _ Eo). simpl.
    destruct (any_isnan (data a)) eqn:Ea.
    { now rewrite (assert_not_nan_raise _ Ea). }
    rewrite (assert_not_nan_ok _ Ea). simpl.
    destruct (any_isnan (data r)) eqn:Er.
    { now rewrite (assert_not_nan_raise _ Er). }
    rewrite (assert_not_nan_ok _ Er). simpl.
    destruct (any_isnan (data n)) eqn:En.
    { now rewrite (assert_not_nan_raise _ En). }
    destruct Hnan as [H | [H | [H | H]]]; discriminate.
  - intros RS draw m bs g g' o a r n. unfold get_random_batch.
    destruct (random_arrays draw m bs g) as [[[[[o0 a0] r0] n0] | e] g0]; simpl;
      [| discriminate].
    destruct (assert_not_nan o0) as [u |] eqn:Eo; simpl; [| discriminate].
    destruct (assert_not_nan a0) as [u' |] eqn:Ea; simpl; [| discriminate].
    destruct (assert_not_nan r0) as [u'' |] eqn:Er; simpl; [| discriminate].
    destruct (assert_not_nan n0) as [u''' |] eqn:En; simpl; [| discriminate].
    intros [= <- <- <- <- <-].
    apply assert_not_nan_inv in Eo, Ea, Er, En. auto.
Qed.

Lemma batches_reject_nan_witness :
  raises (get_episode_batch Demo.one_step_min_max 0 true) /\
  (exists o a r,
     get_episode_batch Demo.three_steps_returns 0 true = Ok (o, a, r) /\
     any_isnan (data o) = false /\ any_isnan (data a) = false /\
     any_isnan (data r) = false) /\
  (exists g', get_random_batch Stub.draw Demo.flat_dimension 2 0
              = (Raise AssertionError, g')) /\
  (exists o a r n g',
     get_random_batch Stub.draw Demo.three_steps_returns 2 0 = (Ok (o, a, r, n), g') /\
     any_isnan (data o) = false /\ any_isnan (data a) = false /\
     any_isnan (data r) = false /\ any_isnan (data n) = false).
Proof.
  destruct batches_reject_nan as (E1 & E2 & R1 & R2).
  repeat apply conj.
  - let v := eval vm_compute in (episode_arrays Demo.one_step_min_max 0 true) in
    match v with
    | Ok (?o, ?a, ?r) => apply (E1 Demo.one_step_min_max 0%Z true o a r)
    end.
    + vm_compute. reflexivity.
    + right; right. exists nan. split; [left |]; reflexivity.
  - let v := eval vm_compute in (get_episode_batch Demo.three_steps_returns 0 true) in
    match v with
    | Ok (?o, ?a, ?r) =>
        exists o, a, r; split;
        [| apply (E2 Demo.three_steps_returns 0%Z true o a r)]
    end; vm_compute; reflexivity.
  - let v := eval vm_compute in (random_arrays Stub.draw Demo.flat_dimension 2 0) in
    match v with
    | (Ok (?o, ?a, ?r, ?n), ?g') =>
        exists g'; apply (R1 nat Stub.draw Demo.flat_dimension 2%Z 0 g' o a r n)
    end.
    + vm_compute. reflexivity.
    + left. vm_compute. reflexivity.
  - let v := eval vm_compute in (get_random_batch Stub.draw Demo.three_steps_returns 2 0) in
    match v with
    | (Ok (?o, ?a, ?r, ?n), ?g') =>
        exists o, a, r, n, g'; split;
        [| apply (R2 nat Stub.draw Demo.three_steps_returns 2%Z 0 g' o a r n)]
    end; vm_compute; reflexivity.
Defined.

(** ** Random batches *)

Lemma slice_from_most_recent {A : Type} (k : Z) (log : list A) :
  (0 < k)%Z -> slice_from (- k) log = most_recent (Z.to_nat k) log.
Proof.
  intros Hk. unfold slice_from, most_recent.
  assert (E : (- k <? 0)%Z = true) by (apply Z.ltb_lt; lia).
  rewrite E. f_equal. lia.
Qed.

Lemma most_recent_incl {A : Type} (k : nat) (log : list A) (x : A) :
  In x (most_recent k log) -> In x log.
Proof.
  unfold most_recent. intros H.
  rewrite <- (firstn_skipn (length log - k) log). apply in_or_app. now right.
Qed.

Lemma length_most_recent {A : Type} (k : nat) (log : list A) :
  length (most_recent k log) = Nat.min k (length log).
Proof.
  unfold most_recent. rewrite length_skipn. lia.
Qed.

Lemma take_indices_ok {A : Type} (l : list A) (indicies : list nat) :
  Forall (fun i => i < length l) indicies ->
  exists batch,
    take_indices l indicies = Ok batch /\
    length batch = length indicies /\
    Forall (fun x => In x l) batch.
Proof.
  induction 1 as [| i indicies Hi _ IH]; simpl.
  - exists []. repeat split; constructor.
  - destruct IH as (batch & Hb & Hl & Hin).
    destruct (nth_error l i) as [x |] eqn:E.
    + exists (x :: batch). rewrite Hb. simpl. repeat split; [congruence |].
      constructor; [now apply nth_error_In with i | exact Hin].
    + apply nth_error_None in E. lia.
Qed.

Lemma uniform_same_length (d : nat) (rows : list vec) :
  Forall (fun r => length r = d) rows -> uniform rows = true.
Proof.
  intros H. destruct rows as [| r rows]; [reflexivity |]. simpl.
  inversion H as [| ? ? Hr Hrows]; subst.
  apply forallb_forall. intros r' Hin.
  rewrite Forall_forall in Hrows. apply Nat.eqb_eq. now apply Hrows.
Qed.

Lemma length_concat_same (d : nat) (rows : list vec) :
  Forall (fun r => length r = d) rows -> length (concat rows) = length rows * d.
Proof.
  induction 1 as [| r rows Hr _ IH]; simpl; [reflexivity |].
  rewrite length_app, IH, Hr. reflexivity.
Qed.

Lemma any_isnan_concat (rows : list vec) :
  Forall (fun r => any_isnan r = false) rows -> any_isnan (concat rows) = false.
Proof.
  unfold any_isnan. induction 1 as [| r rows Hr _ IH]; simpl; [reflexivity |].
  now rewrite existsb_app, Hr, IH.
Qed.

Lemma array_reshape (d : nat) (rows : list vec) :
  Forall (fun r => length r = d) rows ->
  (a <- Np.array rows ;; reshape (length rows) d a)
  = Ok (mk_ndarray (length rows) d (concat rows)).
Proof.
  intros H. unfold Np.array, reshape.
  rewrite (uniform_same_length H). simpl.
  now rewrite (length_concat_same H), Nat.eqb_refl.
Qed.

Lemma Forall_map_iff {A B : Type} (f : A -> B) (P : B -> Prop) (l : list A) :
  Forall P (map f l) <-> Forall (fun x => P (f x)) l.
Proof.
  induction l as [| x l IH]; simpl; split; intros H;
    try constructor; inversion H; subst; auto; now apply IH.
Qed.

(** The arrays of a batch of well-shaped records. *)
Lemma batch_arrays_ok (m : Memory) (batch : list MachineExperience) :
  Forall (well_shaped m) batch ->
  batch_arrays m (length batch) batch =
    Ok (mk_ndarray (length batch) (length (observation_space m))
          (concat (map mach_observation batch)),
        mk_ndarray (length batch) (length (action_space m))
          (concat (map mach_action batch)),
        mk_ndarray (length batch) 1 (map mach_reward batch),
        mk_ndarray (length batch) (length (observation_space m))
          (concat (map mach_next_observation batch))).
Proof.
  intros H. unfold batch_arrays.
  assert (Ho : Forall (fun r => length r = length (observation_space m))
                 (map mach_observation batch))
    by (apply Forall_map_iff; eapply Forall_impl; [| exact H]; now intros ? (? & ? & ?)).
  assert (Ha : Forall (fun r => length r = length (action_space m))
                 (map mach_action batch))
    by (apply Forall_map_iff; eapply Forall_impl; [| exact H]; now intros ? (? & ? & ?)).
  assert (Hn : Forall (fun r => length r = length (observation_space m))
                 (map mach_next_observation batch))
    by (apply Forall_map_iff; eapply Forall_impl; [| exact H]; now intros ? (? & ? & ?)).
  apply array_reshape in Ho, Ha, Hn. rewrite length_map in Ho, Ha, Hn.
  unfold Np.array in *.
  destruct (uniform (map mach_observation batch)); simpl in Ho; [| discriminate].
  simpl. rewrite Ho. simpl.
  destruct (uniform (map mach_action batch)); simpl in Ha; [| discriminate].
  simpl. rewrite Ha. simpl.
  unfold reshape at 1. rewrite length_map, Nat.mul_1_r, Nat.eqb_refl. simpl.
  destruct (uniform (map mach_next_observation batch)); simpl in Hn; [| discriminate].
  simpl. rewrite Hn. simpl.
  rewrite Nat.eqb_refl. reflexivity.
Qed.

Section RandomBatch.

Variable RandomState : Type.
Variable draw : RandomState -> nat -> nat -> list nat * RandomState.

(** What [np.random.randint] promises: as many integers as asked for, all
    below [high]. *)
Hypothesis draw_in_range : forall (g : RandomState) (high size : nat),
  0 < high ->
  length (fst (draw g high size)) = size /\
  Forall (fun i => i < high) (fst (draw g high size)).

Lemma sample_batch_ok (m : Memory) (batch_size : Z) (g : RandomState) :
  (0 <= batch_size)%Z ->
  (0 < memory_length m)%Z ->
  machine_experiences m <> [] ->
  exists batch,
    sample_batch draw m batch_size g
      = (Ok batch, snd (draw g (length (mach_memory_of m))
                          (Z.to_nat (sample_size_of m batch_size)))) /\
    length batch = Z.to_nat (sample_size_of m batch_size) /\
    Forall (fun exp => In exp (most_recent (Z.to_nat (memory_length m))
                                 (machine_experiences m))) batch.
Proof.
  intros Hb Hk Hne. unfold sample_batch, randint.
  assert (Hw : mach_memory_of m
               = most_recent (Z.to_nat (memory_length m)) (machine_experiences m))
    by (now apply slice_from_most_recent).
  assert (Hlen : 0 < length (mach_memory_of m)).
  { rewrite Hw, length_most_recent.
    destruct (machine_experiences m); [congruence | simpl; lia]. }
  assert (E1 : (Z.of_nat (length (mach_memory_of m)) <=? 0)%Z = false)
    by (apply Z.leb_gt; lia).
  assert (E2 : (sample_size_of m batch_size <? 0)%Z = false)
    by (apply Z.ltb_ge; unfold sample_size_of; lia).
  rewrite E1, E2, Nat2Z.id.
  destruct (draw_in_range g (Z.to_nat (sample_size_of m batch_size)) Hlen) as [Hl Hr].
  destruct (draw g (length (mach_memory_of m)) (Z.to_nat (sample_size_of m batch_size)))
    as [indicies g'] eqn:Ed.
  simpl in *.
  destruct (take_indices_ok (mach_memory_of m) Hr) as (batch & Ht & Hlb & Hin).
  exists batch. rewrite Ht. repeat split; [congruence |].
  now rewrite <- Hw.
Qed.

(** C4, amended. On a memory that is not empty, with well-shaped records free
    of not-a-number, a positive [memory_length] and a [batch_size] that is not
    negative, [get_random_batch] returns four arrays of
    min(batch_size, length of the whole machine log) rows, the rows being
    records drawn from the [memory_length] most recent ones. *)
Theorem get_random_batch_rows (m : Memory) (batch_size : Z) (g : RandomState) :
  (0 <= batch_size)%Z ->
  (0 < memory_length m)%Z ->
  machine_experiences m <> [] ->
  Forall (well_shaped m) (machine_experiences m) ->
  Forall nan_free (machine_experiences m) ->
  exists batch obs actions rewards next_obs g',
    sample_batch draw m batch_size g = (Ok batch, g') /\
    Forall (fun exp => In exp (most_recent (Z.to_nat (memory_length m))
                                 (machine_experiences m))) batch /\
    get_random_batch draw m batch_size g = (Ok (obs, actions, rewards, next_obs), g') /\
    Z.of_nat (nrows obs) = Z.min batch_size (Z.of_nat (length (machine_experiences m))) /\
    nrows actions = nrows obs /\ nrows rewards = nrows obs /\
    nrows next_obs = nrows obs /\
    data obs = concat (map mach_observation batch) /\
    data actions = concat (map mach_action batch) /\
    data rewards = map mach_reward batch /\
    data next_obs = concat (map mach_next_observation batch).
Proof.
  intros Hb Hk Hne Hshape Hnan.
  destruct (sample_batch_ok m g Hb Hk Hne) as (batch & Hs & Hl & Hin).
  assert (Hsub : forall exp, In exp batch -> In exp (machine_experiences m)).
  { intros exp He. rewrite Forall_forall in Hin.
    eapply most_recent_incl. now apply Hin. }
  assert (Hbs : Forall (well_shaped m) batch).
  { apply Forall_forall. intros exp He. rewrite Forall_forall in Hshape. auto. }
  assert (Hbn : Forall nan_free batch).
  { apply Forall_forall. intros exp He. rewrite Forall_forall in Hnan. auto. }
  do 6 eexists. split; [exact Hs |]. split; [exact Hin |].
  unfold get_random_batch, random_arrays. rewrite Hs. simpl.
  rewrite <- Hl, (batch_arrays_ok Hbs). simpl.
  assert (No : any_isnan (concat (map mach_observation batch)) = false).
  { apply any_isnan_concat, Forall_map_iff.
    eapply Forall_impl; [| exact Hbn]. now intros ? (? & ? & ? & ?). }
  assert (Na : any_isnan (concat (map mach_action batch)) = false).
  { apply any_isnan_concat, Forall_map_iff.
    eapply Forall_impl; [| exact Hbn]. now intros ? (? & ? & ? & ?). }
  assert (Nr : any_isnan (map mach_reward batch) = false).
  { unfold any_isnan. clear -Hbn. induction Hbn as [| exp l (_ & _ & Hr & _) _ IH];
      simpl; [reflexivity | now rewrite Hr, IH]. }
  assert (Nn : any_isnan (concat (map mach_next_observation batch)) = false).
  { apply any_isnan_concat, Forall_map_iff.
    eapply Forall_impl; [| exact Hbn]. now intros ? (? & ? & ? & ?). }
  unfold assert_not_nan. simpl. rewrite No, Na, Nr, Nn. simpl.
  split; [reflexivity |]. simpl.
  repeat split. rewrite Hl. unfold sample_size_of. lia.
Qed.

End RandomBatch.

Lemma stub_draw_in_range (g high size : nat) :
  0 < high ->
  length (fst (Stub.draw g high size)) = size /\
  Forall (fun i => i < high) (fst (Stub.draw g high size)).
Proof.
  intros Hh. unfold Stub.draw. simpl. split.
  - now rewrite length_map, length_seq.
  - apply Forall_map_iff, Forall_forall. intros k _.
    apply Nat.mod_upper_bound. lia.
Qed.

Lemma get_random_batch_rows_witness :
  let m := Demo.three_steps_returns in
  exists batch obs actions rewards next_obs g',
    sample_batch Stub.draw m 5 0 = (Ok batch, g') /\
    Forall (fun exp => In exp (most_recent (Z.to_nat (memory_length m))
                                 (machine_experiences m))) batch /\
    get_random_batch Stub.draw m 5 0 = (Ok (obs, actions, rewards, next_obs), g') /\
    Z.of_nat (nrows obs) = Z.min 5 (Z.of_nat (length (machine_experiences m))) /\
    nrows actions = nrows obs /\ nrows rewards = nrows obs /\
    nrows next_obs = nrows obs /\
    data obs = concat (map mach_observation batch) /\
    data actions = concat (map mach_action batch) /\
    data rewards = map mach_reward batch /\
    data next_obs = concat (map mach_next_observation batch).
Proof.
  apply (@get_random_batch_rows nat Stub.draw stub_draw_in_range
           Demo.three_steps_returns 5%Z 0).
  - lia.
  - vm_compute. reflexivity.
  - vm_compute. discriminate.
  - vm_compute. repeat constructor.
  - vm_compute. repeat constructor.
Defined.

(** C4, as stated, fails: with three records in the log and a window of two,
    a batch of three has three rows, not two; and with [memory_length] zero
    the window is the whole log, so the records drawn are not among the zero
    most recent ones. *)
Lemma get_random_batch_rows_exceed_window :
  (let m := Demo.three_steps_returns in
   exists obs actions rewards next_obs g',
     get_random_batch Stub.draw m 3 0 = (Ok (obs, actions, rewards, next_obs), g') /\
     nrows obs = 3 /\
     memory_length m = 2%Z /\
     length (mach_memory_of m) = 2 /\
     Z.min 3 (Z.of_nat (length (most_recent (Z.to_nat (memory_length m))
                                  (machine_experiences m)))) = 2%Z) /\
  (let m := Demo.with_memory_length Demo.three_steps_returns 0 in
   exists batch g',
     sample_batch Stub.draw m 3 0 = (Ok batch, g') /\
     length batch = 3 /\
     most_recent (Z.to_nat (memory_length m)) (machine_experiences m) = []).
Proof.
  split.
  - let v := eval vm_compute in (get_random_batch Stub.draw Demo.three_steps_returns 3 0) in
    match v with
    | (Ok (?o, ?a, ?r, ?n), ?g') => exists o, a, r, n, g'
    end.
    repeat split; vm_compute; reflexivity.
  - let v := eval vm_compute in
      (sample_batch Stub.draw (Demo.with_memory_length Demo.three_steps_returns 0) 3 0) in
    match v with
    | (Ok ?b, ?g') => exists b, g'
    end.
    repeat split; vm_compute; reflexivity.
Qed.

(** ** The 'min_max' policy on an episode of equal returns *)

(** Zero divided by zero: whatever [x] is, [(x - x) / (x - x)] is a
    not-a-number, and a not-a-number is on no side of any number. *)
Lemma sub_div_self_nan (x : float) : is_nan ((x - x) / (x - x))%float = true.
Proof.
  unfold is_nan. rewrite eqb_spec, div_spec, sub_spec.
  destruct (Prim2SF x) as [s | s | | s m e].
  - destruct s; reflexivity.
  - destruct s; reflexivity.
  - reflexivity.
  - unfold SF64sub, SpecFloat.SFsub. rewrite Z.sub_diag. reflexivity.
Qed.

Lemma is_nan_leb (x y : float) :
  is_nan x = true -> (x <=? y)%float = false /\ (y <=? x)%float = false.
Proof.
  unfold is_nan. rewrite !leb_spec, eqb_spec.
  unfold SpecFloat.SFleb, SpecFloat.SFeqb.
  destruct (Prim2SF x) as [s | s | | s m e]; simpl.
  - discriminate.
  - destruct s; discriminate.
  - intros _. split; [reflexivity |]. destruct (Prim2SF y); reflexivity.
  - destruct s; rewrite Z.compare_refl, Pos.compare_refl; discriminate.
Qed.

Lemma fold_minimum_same (x : float) (a : list float) :
  Forall (fun y => y = x) a -> fold_left Np.minimum a x = x.
Proof.
  induction 1 as [| y a -> _ IH]; simpl; [reflexivity |].
  replace (Np.minimum x x) with x; [exact IH |].
  unfold Np.minimum. now destruct (is_nan x), (x <? x)%float.
Qed.

Lemma fold_maximum_same (x : float) (a : list float) :
  Forall (fun y => y = x) a -> fold_left Np.maximum a x = x.
Proof.
  induction 1 as [| y a -> _ IH]; simpl; [reflexivity |].
  replace (Np.maximum x x) with x; [exact IH |].
  unfold Np.maximum. now destruct (is_nan x), (x <? x)%float.
Qed.

(** Under 'min_max', returns that are all equal are all scaled to
    not-a-number. *)
Lemma scale_returns_min_max_same (x : float) (rtns : list float) :
  rtns <> [] ->
  Forall (fun y => y = x) rtns ->
  exists scaled,
    scale_returns (Some "min_max"%string) rtns = Ok scaled /\
    length scaled = length rtns /\
    Forall (fun y => is_nan y = true) scaled.
Proof.
  intros Hne Hsame. unfold scale_returns. simpl.
  destruct rtns as [| y rtns]; [congruence |].
  inversion Hsame as [| ? ? -> Hrest]; subst. simpl.
  rewrite (fold_minimum_same Hrest), (fold_maximum_same Hrest).
  eexists. split; [reflexivity |]. split; [simpl; now rewrite length_map |].
  constructor; [apply sub_div_self_nan |].
  apply Forall_forall. intros z Hz. apply in_map_iff in Hz.
  destruct Hz as (w & <- & Hw). rewrite Forall_forall in Hrest.
  rewrite (Hrest w Hw). apply sub_div_self_nan.
Qed.

(** So an episode whose discounted returns are all equal, an episode of one
    step for one, gets not-a-number for every return. *)
Lemma calculate_returns_min_max_same (m : Memory) (ep : Z) (x : float) :
  process_return m = Some "min_max"%string ->
  episode_records m ep <> [] ->
  Forall (fun y => y = x) (discounted_returns (discount m) (episode_records m ep)) ->
  snd (calculate_returns m ep) = Ok tt /\
  Forall (fun exp => exists y, discounted_return exp = Some y /\ is_nan y = true /\
                               (0 <=? y)%float = false /\ (y <=? 1)%float = false)
    (episode_records (fst (calculate_returns m ep)) ep).
Proof.
  intros Hp Hne Hsame.
  destruct (calculate_returns_log_present m ep Hne) as (rtns & start & rest & Hs & Hl & Hi & Hc).
  rewrite <- discounted_returns_backward, Hp in Hs.
  destruct (@scale_returns_min_max_same x
              (discounted_returns (discount m) (episode_records m ep)))
    as (scaled & Hs' & _ & Hnan); auto.
  { intros E. apply (f_equal (@length float)) in E.
    rewrite discounted_returns_backward, length_backward_returns, length_map in E.
    destruct (episode_records m ep); [congruence | discriminate]. }
  assert (scaled = rtns) by congruence. subst scaled.
  unfold calculate_returns. rewrite Hc. simpl. split; [reflexivity |].
  unfold episode_records at 1. simpl.
  rewrite (filter_assign_slice _ _ _ Hi).
  rewrite fill_returns_in_episode by apply filter_idem.
  destruct (fill_returns_same (episode_records m ep) rtns Hl) as [_ Hret].
  clear -Hret Hnan.
  revert Hret. generalize (fill_returns (episode_records m ep) rtns) as recs.
  induction Hnan as [| y rtns Hy _ IH]; intros [| exp recs] Hret; simpl in Hret;
    try discriminate; constructor.
  - injection Hret as Hd _. exists y. destruct (is_nan_leb y 1%float Hy).
    destruct (is_nan_leb y 0%float Hy). auto.
  - injection Hret as _ Hrest. now apply IH.
Qed.

(** C5. A single step under 'min_max': [calculate_returns] succeeds and
    writes a not-a-number as the return, which is not in [0, 1], and
    [get_episode_batch] then fails its assertion. *)
Theorem min_max_single_step_not_a_number :
  let m := Demo.with_process_return Demo.one_step (Some "min_max"%string) in
  process_return m = Some "min_max"%string /\
  map mach_reward (episode_records m 0) = [1%float] /\
  snd (calculate_returns m 0) = Ok tt /\
  exists x,
    map discounted_return (episode_records (fst (calculate_returns m 0)) 0) = [Some x] /\
    is_nan x = true /\
    (0 <=? x)%float = false /\
    (x <=? 1)%float = false /\
    get_episode_batch (fst (calculate_returns m 0)) 0 true = Raise AssertionError.
Proof.
  repeat split. exists nan. repeat split; vm_compute; reflexivity.
Qed.

(** Where the returns of the episode differ, the policy does as intended. *)
Example min_max_three_steps :
  let m := Demo.with_process_return Demo.three_steps (Some "min_max"%string) in
  map discounted_return (episode_records (fst (calculate_returns m 0)) 0)
    = [Some 1; Some (0.5 / 0.75); Some 0]%float.
Proof.
  vm_compute. reflexivity.
Qed.

(** ** The rolling mean of the episodic table *)


Lemma length_rolling_mean (window min_periods : nat) (center : bool) (s : list float) :
  length (Pd.rolling_mean window min_periods center s) = length s.
Proof.
  unfold Pd.rolling_mean. now rewrite length_map, length_seq.
Qed.


(** Up to four thousand episodes, the window computed in floating point is
    the tenth of the number of episodes, rounded down, and at least two. *)
Lemma rolling_window_tenth (n : nat) :
  n <= 4000 -> rolling_window n = Nat.max (n / 10) 2.
Proof.
  intros Hn.
  assert (H : forallb (fun k => Nat.eqb (rolling_window k) (Nat.max (k / 10) 2))
                (seq 0 4001) = true) by (vm_compute; reflexivity).
  rewrite forallb_forall in H. apply Nat.eqb_eq, H, in_seq. lia.
Qed.

Lemma map_fst_combine {A B C : Type} (f : A -> C) (l : list A) : forall (l' : list B),
  length l = length l' ->
  map (fun row => f (fst row)) (combine l l') = map f l.
Proof.
  induction l as [| x l IH]; intros [| y l'] H; simpl in *; try discriminate;
    [reflexivity |].
  injection H as H. now rewrite IH.
Qed.


(** * Further properties of the module *)

(** ** What the transformation copies *)

Section Transformed.

Variable scale_array : vec -> Space -> result vec.
Variable normalize : float -> float -> float -> result float.

Lemma make_machine_experience_copies (m : Memory) (exp : Experience)
    (m_exp : MachineExperience) :
  make_machine_experience scale_array normalize m exp = Ok m_exp ->
  mach_step m_exp = step exp /\
  mach_episode m_exp = episode exp /\
  discounted_return m_exp = None /\
  (if eq_str (process_reward m) "normalize"
   then normalize (reward exp) (low (reward_space m)) (high (reward_space m))
   else Ok (reward exp)) = Ok (mach_reward m_exp).
Proof.
  unfold make_machine_experience.
  destruct (scale_array (observation exp) _) as [so |]; simpl; [| discriminate].
  destruct (scale_array (action exp) _) as [sa |]; simpl; [| discriminate].
  destruct (if eq_str _ _ then _ else _) as [rw |]; simpl; [| discriminate].
  destruct (if bool_eq_int _ _ then _ else _) as [sn |]; simpl; [| discriminate].
  intros [= <-]. simpl. auto.
Qed.

(** X1. A machine record carries the step and the episode of the raw record
    and no return; its reward is the raw reward unless [process_reward] is
    'normalize', in which case it is what [normalize] makes of the raw reward
    and the bounds of the reward space. *)
Theorem make_machine_experience_reward (m : Memory) (exp : Experience)
    (m_exp : MachineExperience) :
  make_machine_experience scale_array normalize m exp = Ok m_exp ->
  mach_step m_exp = step exp /\
  mach_episode m_exp = episode exp /\
  discounted_return m_exp = None /\
  (process_reward m <> Some "normalize"%string -> mach_reward m_exp = reward exp) /\
  (process_reward m = Some "normalize"%string ->
   normalize (reward exp) (low (reward_space m)) (high (reward_space m))
     = Ok (mach_reward m_exp)).
Proof.
  intros H. apply make_machine_experience_copies in H.
  destruct H as (Hs & He & Hr & Hw). repeat split; auto.
  - intros Hp.
    assert (E : eq_str (process_reward m) "normalize" = false).
    { destruct (process_reward m) as [t |]; simpl; [| reflexivity].
      apply String.eqb_neq. congruence. }
    rewrite E in Hw. congruence.
  - intros Hp. rewrite Hp in Hw. exact Hw.
Qed.

Lemma add_rows_match (m : Memory) (exp : Experience) :
  rows_match m -> rows_match (fst (add scale_array normalize m exp)).
Proof.
  unfold rows_match, add, add_experience. intros [He Hs].
  destruct (make_machine_experience _ _ _ _) as [m_exp |] eqn:E; simpl; [| auto].
  apply make_machine_experience_copies in E. destruct E as (E1 & E2 & _).
  simpl in *. rewrite !map_app, He, Hs. simpl. now rewrite E1, E2.
Qed.

Lemma add_returns_unset (m : Memory) (exp : Experience) :
  Forall (fun r => discounted_return r = None) (machine_experiences m) ->
  Forall (fun r => discounted_return r = None)
    (machine_experiences (fst (add scale_array normalize m exp))).
Proof.
  unfold add, add_experience. intros H.
  destruct (make_machine_experience _ _ _ _) as [m_exp |] eqn:E; simpl; [| auto].
  apply make_machine_experience_copies in E. destruct E as (_ & _ & E & _).
  apply Forall_app. split; [exact H | now constructor].
Qed.

(** X2. After any sequence of [add_experience] calls from [reset], the two
    logs tell the same step and the same episode row by row, and no machine
    record has a return yet. *)
Theorem add_experience_rows_match (m : Memory) (calls : list Experience) :
  let m' := add_all scale_array normalize (reset m) calls in
  rows_match m' /\
  Forall (fun r => discounted_return r = None) (machine_experiences m').
Proof.
  simpl. unfold add_all.
  assert (G : forall m0, rows_match m0 ->
            Forall (fun r => discounted_return r = None) (machine_experiences m0) ->
            rows_match (fold_left (fun m1 exp => fst (add scale_array normalize m1 exp))
                          calls m0) /\
            Forall (fun r => discounted_return r = None)
              (machine_experiences
                 (fold_left (fun m1 exp => fst (add scale_array normalize m1 exp))
                    calls m0))).
  { induction calls as [| exp calls IH]; intros m0 H1 H2; simpl; [auto |].
    apply IH; [now apply add_rows_match | now apply add_returns_unset]. }
  apply G; [split; reflexivity | constructor].
Qed.

(** X3. On a memory whose logs have different lengths, [add_experience]
    raises AssertionError after it has appended to both logs: the records
    are in, and the lengths still differ. *)
Theorem add_experience_misaligned (m : Memory) (exp : Experience)
    (m_exp : MachineExperience) :
  length (experiences m) <> length (machine_experiences m) ->
  make_machine_experience scale_array normalize m exp = Ok m_exp ->
  let m' := fst (add scale_array normalize m exp) in
  snd (add scale_array normalize m exp) = Raise AssertionError /\
  experiences m' = experiences m ++ [exp] /\
  machine_experiences m' = machine_experiences m ++ [m_exp] /\
  length (experiences m') <> length (machine_experiences m').
Proof.
  intros Hne Hm. unfold add, add_experience.
  replace (mk_experience (observation exp) (action exp) (reward exp)
             (next_observation exp) (step exp) (episode exp)) with exp
    by (now destruct exp).
  rewrite Hm. simpl. rewrite !length_app. simpl.
  assert (E : Nat.eqb (length (experiences m) + 1)
                (length (machine_experiences m) + 1) = false)
    by (apply Nat.eqb_neq; lia).
  rewrite E. repeat split; auto. lia.
Qed.

End Transformed.

Lemma make_machine_experience_reward_witness :
  let m := MoreDemo.with_process_reward Demo.empty (Some "normalize"%string) in
  let exp := Demo.step_of 0 2 1 0 in
  exists m_exp,
    make_machine_experience Stub.scale_array Stub.normalize m exp = Ok m_exp /\
    mach_step m_exp = step exp /\
    mach_episode m_exp = episode exp /\
    discounted_return m_exp = None /\
    (process_reward m <> Some "normalize"%string -> mach_reward m_exp = reward exp) /\
    (process_reward m = Some "normalize"%string ->
     Stub.normalize (reward exp) (low (reward_space m)) (high (reward_space m))
       = Ok (mach_reward m_exp)).
Proof.
  let v := eval vm_compute in
    (make_machine_experience Stub.scale_array Stub.normalize
       (MoreDemo.with_process_reward Demo.empty (Some "normalize"%string))
       (Demo.step_of 0 2 1 0)) in
  match v with
  | Ok ?r =>
      exists r; split;
      [ vm_compute; reflexivity
      | apply (@make_machine_experience_reward Stub.scale_array Stub.normalize
                 (MoreDemo.with_process_reward Demo.empty (Some "normalize"%string))
                 (Demo.step_of 0 2 1 0) r);
        vm_compute; reflexivity ]
  end.
Defined.

Lemma add_experience_misaligned_witness :
  let m := MoreDemo.lossy in
  let exp := Demo.step_of 2 1 1 0 in
  exists m_exp,
    let m' := fst (add Stub.scale_array Stub.normalize m exp) in
    snd (add Stub.scale_array Stub.normalize m exp) = Raise AssertionError /\
    experiences m' = experiences m ++ [exp] /\
    machine_experiences m' = machine_experiences m ++ [m_exp] /\
    length (experiences m') <> length (machine_experiences m').
Proof.
  let v := eval vm_compute in
    (make_machine_experience Stub.scale_array Stub.normalize
       MoreDemo.lossy (Demo.step_of 2 1 1 0)) in
  match v with
  | Ok ?r =>
      exists r;
      apply (@add_experience_misaligned Stub.scale_array Stub.normalize
               MoreDemo.lossy (Demo.step_of 2 1 1 0) r)
  end.
  - vm_compute. discriminate.
  - vm_compute. reflexivity.
Defined.

(** ** The returns look forward only *)

Lemma backward_returns_app (discount : float) (earlier later : list float) :
  skipn (length earlier) (backward_returns discount (earlier ++ later))
  = backward_returns discount later.
Proof.
  induction earlier as [| r earlier IH]; simpl; [reflexivity | exact IH].
Qed.

(** X4. The returns of the later steps of an episode do not depend on the
    steps before them: the loop of [calculate_returns] gives the steps of
    [later] the same returns whether or not [earlier] precedes them. *)
Theorem discounted_returns_suffix (discount : float)
    (earlier later : list MachineExperience) :
  skipn (length earlier) (discounted_returns discount (earlier ++ later))
  = discounted_returns discount later.
Proof.
  rewrite !discounted_returns_backward, map_app.
  rewrite <- (length_map mach_reward earlier). apply backward_returns_app.
Qed.

(** ** Episodes that are interrupted, computed twice, or absent *)

Section Blocks.

Context {A : Type} (f : A -> bool).

(** The last index of the mask of a list whose last element is selected. *)
Lemma indices_last_selected (front : list A) (lst : A) (k : nat) :
  f lst = true ->
  last (boolean_index (map f (front ++ [lst])) (seq k (length (front ++ [lst])))) 0
  = k + length front.
Proof.
  intros Hf. rewrite indices_app. simpl. now rewrite Hf, last_last.
Qed.

(** A list with a selected element is a block that begins and ends with a
    selected element, between two parts without any. *)
Lemma exists_block (l : list A) :
  filter f l <> [] ->
  exists pre block post first rest front lst,
    l = pre ++ block ++ post /\
    filter f pre = [] /\ filter f post = [] /\
    block = first :: rest /\ f first = true /\
    block = front ++ [lst] /\ f lst = true.
Proof.
  induction l as [| a l IH]; simpl; [congruence |].
  destruct (f a) eqn:Ea.
  - intros _. destruct (filter f l) as [| b bs] eqn:El.
    + exists [], [a], l, a, [], [], a. simpl. auto 10.
    + destruct IH as (pre & block & post & first & rest & front & lst
                      & Hl & Hpre & Hpost & Hb & Hf & Hb' & Hlst); [discriminate |].
      exists [], (a :: pre ++ block), post, a, (pre ++ block), (a :: pre ++ front), lst.
      simpl. rewrite Hl, <- !app_assoc. repeat split; auto.
      now rewrite Hb'.
  - intros Hne.
    destruct (IH Hne) as (pre & block & post & first & rest & front & lst
                          & Hl & Hpre & Hpost & Hb & Hf & Hb' & Hlst).
    exists (a :: pre), block, post, first, rest, front, lst.
    simpl. rewrite Ea, Hl. auto 10.
Qed.

End Blocks.

(** The log that [calculate_returns] computes when the records of the episode
    lie in [block], which begins and ends with one of them: the block is
    replaced by its records of the episode, the rest of the block is gone. *)
Lemma calculate_returns_log_block (m : Memory) (ep : Z)
    (pre block post : list MachineExperience)
    (first lst : MachineExperience) (rest front : list MachineExperience) :
  machine_experiences m = pre ++ block ++ post ->
  filter (in_episode ep) pre = [] ->
  filter (in_episode ep) post = [] ->
  block = first :: rest -> in_episode ep first = true ->
  block = front ++ [lst] -> in_episode ep lst = true ->
  exists rtns,
    scale_returns (process_return m)
      (discounted_returns (discount m) (filter (in_episode ep) block)) = Ok rtns /\
    length rtns = length (filter (in_episode ep) block) /\
    calculate_returns_log m ep =
      Ok (pre ++ fill_returns (filter (in_episode ep) block) rtns ++ post).
Proof.
  intros Hlog Hpre Hpost Hb Hfirst Hb' Hlst.
  assert (Hrecs : episode_records m ep = filter (in_episode ep) block).
  { unfold episode_records. rewrite Hlog, !filter_app, Hpre, Hpost.
    now rewrite app_nil_r. }
  assert (Hne : episode_records m ep <> []).
  { rewrite Hrecs, Hb. simpl. rewrite Hfirst. discriminate. }
  destruct (calculate_returns_log_present m ep Hne)
    as (rtns & start & others & Hs & Hl & Hi & Hc).
  rewrite <- discounted_returns_backward, Hrecs in Hs. rewrite Hrecs in Hl, Hc.
  exists rtns. split; [exact Hs |]. split; [exact Hl |].
  rewrite Hc. f_equal.
  rewrite Hlog in Hi.
  rewrite indices_app, (indices_none _ _ _ Hpre) in Hi.
  rewrite indices_app, (indices_none _ _ _ Hpost), app_nil_r in Hi.
  simpl in Hi.
  assert (Hstart : start = length pre).
  { rewrite Hb in Hi. simpl in Hi. rewrite Hfirst in Hi. congruence. }
  assert (Hstop : last (start :: others) 0 + 1 = length pre + length block).
  { rewrite <- Hi, Hb'. rewrite (@indices_last_selected _ (in_episode ep) front lst (length pre) Hlst).
    rewrite length_app. simpl. lia. }
  rewrite Hstop, Hstart, Hlog. apply assign_slice_middle.
Qed.

Lemma in_episode_true (ep : Z) (exp : MachineExperience) :
  mach_episode exp = ep -> in_episode ep exp = true.
Proof.
  intros <-. apply Z.eqb_refl.
Qed.

(** X5. When the first and the last record of an episode enclose records of
    other episodes, [calculate_returns] removes those records from the
    machine log: the block from the first to the last record of the episode
    is replaced by the records of the episode with their returns, the raw
    log keeps all its records, and the machine log is shorter by the number
    of records removed. *)
Theorem calculate_returns_drops_enclosed (m : Memory) (ep : Z)
    (pre block post : list MachineExperience)
    (first lst : MachineExperience) (rest front : list MachineExperience) :
  machine_experiences m = pre ++ block ++ post ->
  Forall (fun exp => mach_episode exp <> ep) pre ->
  Forall (fun exp => mach_episode exp <> ep) post ->
  block = first :: rest -> mach_episode first = ep ->
  block = front ++ [lst] -> mach_episode lst = ep ->
  let m' := fst (calculate_returns m ep) in
  snd (calculate_returns m ep) = Ok tt /\
  experiences m' = experiences m /\
  exists kept,
    machine_experiences m' = pre ++ kept ++ post /\
    Forall2 same_but_return (filter (in_episode ep) block) kept /\
    length (machine_experiences m')
      + length (filter (fun exp => negb (in_episode ep exp)) block)
      = length (machine_experiences m).
Proof.
  intros Hlog Hpre Hpost Hb Hfirst Hb' Hlst.
  apply filter_none_of in Hpre, Hpost. apply in_episode_true in Hfirst, Hlst.
  destruct (@calculate_returns_log_block m ep pre block post first lst rest front
              Hlog Hpre Hpost Hb Hfirst Hb' Hlst)
    as (rtns & _ & Hl & Hc).
  simpl. unfold calculate_returns. rewrite Hc. simpl.
  split; [reflexivity |]. split; [reflexivity |].
  destruct (fill_returns_same _ _ Hl) as [Hsame _].
  exists (fill_returns (filter (in_episode ep) block) rtns).
  split; [reflexivity |]. split; [exact Hsame |].
  rewrite Hlog, !length_app. apply Forall2_length in Hsame.
  pose proof (filter_length (in_episode ep) block). lia.
Qed.

Lemma calculate_returns_drops_enclosed_witness :
  let m := MoreDemo.interleaved in
  let log := machine_experiences m in
  let m' := fst (calculate_returns m 0) in
  snd (calculate_returns m 0) = Ok tt /\
  experiences m' = experiences m /\
  exists kept,
    machine_experiences m' = [] ++ kept ++ [] /\
    Forall2 same_but_return (filter (in_episode 0) log) kept /\
    length (machine_experiences m')
      + length (filter (fun exp => negb (in_episode 0 exp)) log)
      = length (machine_experiences m).
Proof.
  apply (@calculate_returns_drops_enclosed MoreDemo.interleaved 0%Z
           [] (machine_experiences MoreDemo.interleaved) []
           (hd MoreDemo.blank (machine_experiences MoreDemo.interleaved))
           (last (machine_experiences MoreDemo.interleaved) MoreDemo.blank)
           (tl (machine_experiences MoreDemo.interleaved))
           (removelast (machine_experiences MoreDemo.interleaved))).
  - now rewrite app_nil_r.
  - constructor.
  - constructor.
  - reflexivity.
  - reflexivity.
  - reflexivity.
  - reflexivity.
Defined.

Lemma fill_returns_twice (recs : list MachineExperience) : forall rtns,
  fill_returns (fill_returns recs rtns) rtns = fill_returns recs rtns.
Proof.
  unfold fill_returns.
  induction recs as [| exp recs IH]; intros [| r rtns]; simpl; try reflexivity.
  now rewrite IH.
Qed.

Lemma same_but_return_rewards (a b : list MachineExperience) :
  Forall2 same_but_return a b -> map mach_reward a = map mach_reward b.
Proof.
  induction 1 as [| x y a b (_ & _ & Hr & _) _ IH]; simpl; [reflexivity |].
  now rewrite Hr, IH.
Qed.

Lemma filter_nonempty_ends {A : Type} (f : A -> bool) (l : list A) :
  filter f l = l -> l <> [] ->
  exists first rest front lst,
    l = first :: rest /\ f first = true /\ l = front ++ [lst] /\ f lst = true.
Proof.
  intros Hall Hne.
  assert (Hin : forall x, In x l -> f x = true).
  { intros x Hx. rewrite <- Hall in Hx. now apply filter_In in Hx. }
  destruct l as [| first rest]; [congruence |].
  destruct (exists_last Hne) as [front [lst E]].
  exists first, rest, front, lst. repeat split; auto.
  - apply Hin. now left.
  - apply Hin. rewrite E. apply in_or_app. right. now left.
Qed.

(** X6. Computing the returns of an episode a second time changes nothing:
    after a first [calculate_returns], a second one for the same episode
    succeeds and leaves the memory exactly as it found it. *)
Theorem calculate_returns_twice (m : Memory) (ep : Z) :
  episode_records m ep <> [] ->
  let m' := fst (calculate_returns m ep) in
  snd (calculate_returns m ep) = Ok tt /\
  calculate_returns m' ep = (m', Ok tt).
Proof.
  intros Hne.
  destruct (exists_block (in_episode ep) (machine_experiences m) Hne)
    as (pre & block & post & first & rest & front & lst
        & Hlog & Hpre & Hpost & Hb & Hfirst & Hb' & Hlst).
  destruct (@calculate_returns_log_block m ep pre block post first lst rest front
              Hlog Hpre Hpost Hb Hfirst Hb' Hlst) as (rtns & Hs & Hl & Hc).
  assert (Hcr : calculate_returns m ep =
                (with_logs m (experiences m)
                   (pre ++ fill_returns (filter (in_episode ep) block) rtns ++ post),
                 Ok tt))
    by (unfold calculate_returns; now rewrite Hc).
  cbv zeta. rewrite Hcr. cbn [fst snd].
  split; [reflexivity |].
  set (recs := filter (in_episode ep) block) in *.
  set (new := fill_returns recs rtns).
  set (m' := with_logs m (experiences m) (pre ++ new ++ post)).
  destruct (fill_returns_same recs rtns Hl) as [Hsame _].
  assert (Hall : filter (in_episode ep) new = new).
  { apply fill_returns_in_episode. apply filter_idem. }
  assert (Hnew : new <> []).
  { intros E. apply Forall2_length in Hsame. fold new in Hsame. rewrite E in Hsame.
    subst recs. rewrite Hb in Hsame. simpl in Hsame. rewrite Hfirst in Hsame.
    discriminate. }
  destruct (filter_nonempty_ends _ Hall Hnew)
    as (first' & rest' & front' & lst' & Hn & Hf' & Hn' & Hl').
  destruct (@calculate_returns_log_block m' ep pre new post first' lst' rest' front'
              eq_refl Hpre Hpost Hn Hf' Hn' Hl') as (rtns' & Hs' & _ & Hc').
  rewrite Hall in Hs', Hc'.
  assert (E : rtns' = rtns).
  { simpl in Hs'. rewrite discounted_returns_backward in Hs, Hs'.
    unfold new in Hs'.
    rewrite <- (same_but_return_rewards Hsame) in Hs'. congruence. }
  subst rtns'.
  replace (fill_returns new rtns) with new in Hc'
    by (unfold new; now rewrite fill_returns_twice).
  unfold calculate_returns. rewrite Hc'. reflexivity.
Qed.

Lemma calculate_returns_twice_witness :
  let m' := fst (calculate_returns MoreDemo.three_episodes_min_max 1) in
  snd (calculate_returns MoreDemo.three_episodes_min_max 1) = Ok tt /\
  calculate_returns m' 1 = (m', Ok tt).
Proof.
  apply (@calculate_returns_twice MoreDemo.three_episodes_min_max 1%Z).
  vm_compute. discriminate.
Defined.

(** X7. For an episode without records [calculate_returns] raises and leaves
    the memory as it was: IndexError, except on a log that is not empty
    under the 'min_max' policy, where the minimum of no returns raises
    ValueError first. *)
Theorem calculate_returns_absent_episode (m : Memory) (ep : Z) :
  Forall (fun exp => mach_episode exp <> ep) (machine_experiences m) ->
  calculate_returns m ep =
    (m, Raise (match machine_experiences m with
               | [] => IndexError
               | _ :: _ =>
                   if eq_str (process_return m) "min_max"
                   then ValueError else IndexError
               end)).
Proof.
  intros Hnone. apply filter_none_of in Hnone.
  destruct (machine_experiences m) as [| exp log] eqn:El.
  { unfold calculate_returns, calculate_returns_log. now rewrite El. }
  rewrite <- El in Hnone.
  unfold calculate_returns, calculate_returns_log.
  rewrite episode_mask_of_nonempty by (rewrite El; discriminate). simpl.
  rewrite boolean_index_filter, Hnone. unfold discounted_returns. simpl.
  rewrite (indices_none _ 0 _ Hnone).
  unfold scale_returns.
  destruct (eq_str (process_return m) "scale_only"),
           (eq_str (process_return m) "mean_scale"),
           (eq_str (process_return m) "min_max"); reflexivity.
Qed.

Lemma calculate_returns_absent_episode_witness :
  calculate_returns MoreDemo.three_episodes_min_max 9 =
    (MoreDemo.three_episodes_min_max, Raise ValueError) /\
  calculate_returns Demo.three_episodes 9 = (Demo.three_episodes, Raise IndexError).
Proof.
  split.
  - apply (@calculate_returns_absent_episode MoreDemo.three_episodes_min_max 9%Z).
    vm_compute. repeat constructor; discriminate.
  - apply (@calculate_returns_absent_episode Demo.three_episodes 9%Z).
    vm_compute. repeat constructor; discriminate.
Defined.

(** ** Episodes added in order *)

Section Ordered.

Context {A : Type} (R : A -> A -> Prop).

Lemma sorted_app_l (l1 l2 : list A) :
  StronglySorted R (l1 ++ l2) -> StronglySorted R l1.
Proof.
  induction l1 as [| a l1 IH]; simpl; intros H; [constructor |].
  apply StronglySorted_inv in H. destruct H as [H1 H2].
  constructor; [now apply IH |].
  apply Forall_app in H2. tauto.
Qed.

Lemma sorted_app_r (l1 l2 : list A) :
  StronglySorted R (l1 ++ l2) -> StronglySorted R l2.
Proof.
  induction l1 as [| a l1 IH]; simpl; intros H; [exact H |].
  apply StronglySorted_inv in H. now apply IH.
Qed.

Lemma sorted_before (l1 l2 : list A) (a : A) :
  StronglySorted R (l1 ++ a :: l2) -> Forall (fun x => R x a) l1.
Proof.
  induction l1 as [| b l1 IH]; simpl; intros H; [constructor |].
  apply StronglySorted_inv in H. destruct H as [H1 H2].
  constructor; [| now apply IH].
  apply Forall_app in H2. destruct H2 as [_ H2]. now inversion H2.
Qed.

Lemma sorted_remove (l1 l2 : list A) (a : A) :
  StronglySorted R (l1 ++ a :: l2) -> StronglySorted R (l1 ++ l2).
Proof.
  induction l1 as [| b l1 IH]; simpl; intros H.
  - now apply StronglySorted_inv in H.
  - apply StronglySorted_inv in H. destruct H as [H1 H2].
    constructor; [now apply IH |].
    apply Forall_app in H2. destruct H2 as [H2 H3].
    apply Forall_app. split; [exact H2 | now inversion H3].
Qed.

End Ordered.

(** In a log whose episodes never decrease, the records between two records
    of an episode are records of that episode. *)
Lemma sorted_block_in_episode (ep : Z) (pre block post : list MachineExperience)
    (first lst : MachineExperience) (rest front : list MachineExperience) :
  StronglySorted Z.le (map mach_episode (pre ++ block ++ post)) ->
  block = first :: rest -> mach_episode first = ep ->
  block = front ++ [lst] -> mach_episode lst = ep ->
  filter (in_episode ep) block = block.
Proof.
  intros Hs Hb Hfirst Hb' Hlst.
  rewrite map_app in Hs. apply sorted_app_r in Hs.
  rewrite map_app in Hs. apply sorted_app_l in Hs.
  apply filter_all_of, Forall_forall. intros x Hx.
  assert (Hlow : (ep <= mach_episode x)%Z).
  { rewrite Hb in Hs, Hx. simpl in Hs. apply StronglySorted_inv in Hs.
    destruct Hs as [_ Hs]. destruct Hx as [<- | Hx]; [lia |].
    rewrite Forall_forall in Hs. rewrite <- Hfirst.
    apply Hs. now apply in_map. }
  assert (Hhigh : (mach_episode x <= ep)%Z).
  { rewrite Hb' in Hs, Hx. rewrite map_app in Hs. simpl in Hs.
    apply sorted_before in Hs. apply in_app_or in Hx.
    destruct Hx as [Hx | [<- | []]]; [| lia].
    rewrite Forall_forall in Hs. rewrite <- Hlst.
    apply Hs. now apply in_map. }
  lia.
Qed.

(** On such a log [calculate_returns] keeps the steps and the episodes of
    all rows. *)
Lemma calculate_returns_sorted (m : Memory) (ep : Z) :
  StronglySorted Z.le (map mach_episode (machine_experiences m)) ->
  map mach_episode (machine_experiences (fst (calculate_returns m ep)))
    = map mach_episode (machine_experiences m) /\
  map mach_step (machine_experiences (fst (calculate_returns m ep)))
    = map mach_step (machine_experiences m).
Proof.
  intros Hs.
  destruct (filter (in_episode ep) (machine_experiences m)) as [| r rs] eqn:Ef.
  - destruct (calculate_returns_log_absent m ep Ef) as [e He].
    unfold calculate_returns. rewrite He. simpl. auto.
  - assert (Hne : filter (in_episode ep) (machine_experiences m) <> [])
      by (rewrite Ef; discriminate).
    destruct (exists_block (in_episode ep) (machine_experiences m) Hne)
      as (pre & block & post & first & rest & front & lst
          & Hlog & Hpre & Hpost & Hb & Hfirst & Hb' & Hlst).
    destruct (@calculate_returns_log_block m ep pre block post first lst rest front
                Hlog Hpre Hpost Hb Hfirst Hb' Hlst) as (rtns & _ & Hl & Hc).
    rewrite Hlog in Hs.
    assert (Hall : filter (in_episode ep) block = block).
    { apply (@sorted_block_in_episode ep pre block post first lst rest front);
        auto; now apply Z.eqb_eq. }
    rewrite Hall in Hl, Hc.
    unfold calculate_returns. rewrite Hc. simpl. rewrite Hlog.
    destruct (fill_returns_same block rtns Hl) as [Hsame _].
    assert (He : map mach_episode (fill_returns block rtns) = map mach_episode block
                 /\ map mach_step (fill_returns block rtns) = map mach_step block).
    { clear -Hsame. induction Hsame as [| x y a b (_ & _ & _ & _ & H1 & H2) _ [IH1 IH2]];
        simpl; [auto |]. now rewrite IH1, IH2, H1, H2. }
    destruct He as [He1 He2]. rewrite !map_app, He1, He2. auto.
Qed.

Section Runs.

Variable scale_array : vec -> Space -> result vec.
Variable normalize : float -> float -> float -> result float.

Lemma add_appends_or_not (m : Memory) (exp : Experience) :
  experiences (fst (add scale_array normalize m exp)) = experiences m ++ [exp] \/
  fst (add scale_array normalize m exp) = m.
Proof.
  unfold add, add_experience.
  destruct (make_machine_experience _ _ _ _); simpl; [left | now right].
  now destruct exp.
Qed.

Lemma run_rows_match (ops : list Op) : forall m : Memory,
  rows_match m ->
  StronglySorted Z.le (map episode (experiences m) ++ added_episodes ops) ->
  rows_match (run scale_array normalize m ops).
Proof.
  induction ops as [| op ops IH]; intros m Hm Hs; simpl; [exact Hm |].
  apply IH.
  - destruct op as [exp | ep]; simpl.
    + now apply add_rows_match.
    + destruct Hm as [He Hst].
      destruct (calculate_returns_keeps m ep) as [Hexp _].
      destruct (@calculate_returns_sorted m ep) as [H1 H2].
      { rewrite He. simpl in Hs. now apply sorted_app_l in Hs. }
      unfold rows_match. rewrite Hexp, H1, H2. auto.
  - destruct op as [exp | ep]; simpl in *.
    + destruct (add_appends_or_not m exp) as [E | E]; rewrite E.
      * now rewrite map_app, <- app_assoc.
      * now apply sorted_remove in Hs.
    + destruct (calculate_returns_keeps m ep) as [Hexp _]. now rewrite Hexp.
Qed.

(** X8. When the episodes of the [add_experience] calls never decrease, the
    two logs stay aligned through any sequence of [add_experience] and
    [calculate_returns] calls from [reset]: they have the same length, and
    tell the same step and the same episode in every row. *)
Theorem run_keeps_logs_aligned (m : Memory) (ops : list Op) :
  StronglySorted Z.le (added_episodes ops) ->
  let m' := run scale_array normalize (reset m) ops in
  length (experiences m') = length (machine_experiences m') /\
  rows_match m'.
Proof.
  intros Hs m'.
  assert (H : rows_match m') by (apply run_rows_match; [split; reflexivity | exact Hs]).
  split; [| exact H].
  destruct H as [H _]. apply (f_equal (@length Z)) in H.
  now rewrite !length_map in H.
Qed.

End Runs.

Lemma run_keeps_logs_aligned_witness :
  let ops := [OpAdd (Demo.step_of 0 2 1 0); OpAdd (Demo.step_of 0 2 1 1);
              OpReturns 0; OpAdd (Demo.step_of 1 1 1 0); OpReturns 1;
              OpReturns 0; OpReturns 5] in
  let m' := run Stub.scale_array Stub.normalize (reset Demo.empty) ops in
  length (experiences m') = length (machine_experiences m') /\
  rows_match m'.
Proof.
  apply (@run_keeps_logs_aligned Stub.scale_array Stub.normalize Demo.empty).
  simpl. repeat constructor; lia.
Defined.

(** ** The batch of an episode *)

Lemma combine_boolean_index {A B : Type} (f : B -> bool) (b : list B) : forall (a : list A),
  length a = length b ->
  combine (boolean_index (map f b) a) (boolean_index (map f b) b)
  = filter (fun row => f (snd row)) (combine a b).
Proof.
  induction b as [| y b IH]; intros [| x a] H; simpl in *; try discriminate;
    [reflexivity |].
  injection H as H. destruct (f y); simpl; now rewrite IH.
Qed.

Lemma map_snd_filter_combine {A B : Type} (f : B -> bool) (b : list B) : forall (a : list A),
  length a = length b ->
  map snd (filter (fun row => f (snd row)) (combine a b)) = filter f b.
Proof.
  induction b as [| y b IH]; intros [| x a] H; simpl in *; try discriminate;
    [reflexivity |].
  injection H as H. destruct (f y); simpl; now rewrite IH.
Qed.

Lemma array_reshape_infer (d : nat) (rows : list vec) :
  0 < d ->
  Forall (fun r => length r = d) rows ->
  (a <- Np.array rows ;; reshape_infer d a)
  = Ok (mk_ndarray (length rows) d (concat rows)).
Proof.
  intros Hd H. unfold Np.array, reshape_infer.
  rewrite (uniform_same_length H). simpl.
  rewrite (length_concat_same H).
  destruct d as [| d']; [lia |].
  rewrite Nat.Div0.mod_mul, Nat.div_mul by lia. reflexivity.
Qed.

Lemma reshape_infer_column {A : Type} (l : list A) :
  reshape_infer 1 l = Ok (mk_ndarray (length l) 1 l).
Proof.
  unfold reshape_infer. now rewrite Nat.mod_1_r, Nat.div_1_r.
Qed.

Lemma all_set_none (returns : list (option float)) :
  In None returns -> all_set returns = None.
Proof.
  induction returns as [| r returns IH]; simpl; [tauto |].
  intros [-> | H]; [reflexivity |].
  rewrite (IH H). now destruct r.
Qed.

Lemma episode_rows_records (m : Memory) (ep : Z) :
  aligned m -> map snd (episode_rows m ep) = episode_records m ep.
Proof.
  intros Hal. unfold episode_rows, episode_records.
  now apply (map_snd_filter_combine (in_episode ep)).
Qed.

(** The three arrays built for an episode whose rows fit. *)
Lemma episode_arrays_fit (m : Memory) (ep : Z) (scaled_actions : bool) :
  aligned m ->
  machine_experiences m <> [] ->
  0 < length (observation_space m) ->
  0 < length (action_space m) ->
  Forall (row_fits m scaled_actions) (episode_rows m ep) ->
  episode_arrays m ep scaled_actions =
    Ok (mk_ndarray (length (episode_rows m ep)) (length (observation_space m))
          (concat (map (fun row => mach_observation (snd row)) (episode_rows m ep))),
        mk_ndarray (length (episode_rows m ep)) (length (action_space m))
          (concat (map (row_action scaled_actions) (episode_rows m ep))),
        mk_ndarray (length (episode_rows m ep)) 1
          (map (fun row => discounted_return (snd row)) (episode_rows m ep))).
Proof.
  intros Hal Hne Hod Had Hfit. unfold episode_arrays.
  rewrite Hal, Nat.eqb_refl. cbn [Py.bind Py.assert].
  rewrite (episode_mask_of_nonempty ep Hne). cbn [Py.bind].
  rewrite (combine_boolean_index (in_episode ep) _ _ Hal).
  fold (episode_rows m ep).
  assert (Ho : Forall (fun r => length r = length (observation_space m))
                 (map (fun row => mach_observation (snd row)) (episode_rows m ep)))
    by (apply Forall_map_iff; eapply Forall_impl; [| exact Hfit];
        now intros ? (? & ? & ?)).
  assert (Ha : Forall (fun r => length r = length (action_space m))
                 (map (row_action scaled_actions) (episode_rows m ep)))
    by (apply Forall_map_iff; eapply Forall_impl; [| exact Hfit];
        now intros ? (? & ? & ?)).
  pose proof (array_reshape_infer Hod Ho) as Eo.
  pose proof (array_reshape_infer Had Ha) as Ea.
  rewrite length_map in Eo, Ea.
  unfold Np.array in *.
  change (map (fun p : Experience * MachineExperience =>
                 if scaled_actions then mach_action (snd p) else action (fst p))
            (episode_rows m ep))
    with (map (row_action scaled_actions) (episode_rows m ep)).
  destruct (uniform (map (fun row => mach_observation (snd row)) (episode_rows m ep)));
    cbn [Py.bind] in Eo; [| discriminate].
  cbn [Py.bind]. rewrite Eo. cbn [Py.bind].
  destruct (uniform (map (row_action scaled_actions) (episode_rows m ep)));
    cbn [Py.bind] in Ea; [| discriminate].
  cbn [Py.bind]. rewrite Ea. cbn [Py.bind].
  rewrite reshape_infer_column. cbn [Py.bind nrows].
  rewrite length_map, Nat.eqb_refl. reflexivity.
Qed.

Lemma rows_no_nan (m : Memory) (sa : bool) (rows : list (Experience * MachineExperience)) :
  Forall (row_fits m sa) rows ->
  any_isnan (concat (map (fun row => mach_observation (snd row)) rows)) = false /\
  any_isnan (concat (map (row_action sa) rows)) = false.
Proof.
  intros H. split; apply any_isnan_concat, Forall_map_iff;
    (eapply Forall_impl; [| exact H]); now intros ? (? & ? & ? & ?).
Qed.

(** The batch of an episode whose rows fit and whose returns are set. *)
Lemma get_episode_batch_fit (m : Memory) (ep : Z) (scaled_actions : bool)
    (rets : list float) :
  aligned m ->
  machine_experiences m <> [] ->
  0 < length (observation_space m) ->
  0 < length (action_space m) ->
  Forall (row_fits m scaled_actions) (episode_rows m ep) ->
  map (fun row => discounted_return (snd row)) (episode_rows m ep) = map Some rets ->
  any_isnan rets = false ->
  get_episode_batch m ep scaled_actions =
    Ok (mk_ndarray (length (episode_rows m ep)) (length (observation_space m))
          (concat (map (fun row => mach_observation (snd row)) (episode_rows m ep))),
        mk_ndarray (length (episode_rows m ep)) (length (action_space m))
          (concat (map (row_action scaled_actions) (episode_rows m ep))),
        mk_ndarray (length (episode_rows m ep)) 1 rets).
Proof.
  intros Hal Hne Hod Had Hfit Hret Hnan. unfold get_episode_batch.
  rewrite (episode_arrays_fit ep Hal Hne Hod Had Hfit). simpl.
  destruct (rows_no_nan Hfit) as [No Na].
  unfold assert_not_nan. simpl. rewrite No, Na. simpl.
  unfold assert_returns_not_nan. simpl.
  rewrite Hret, all_set_map_some, Hnan. reflexivity.
Qed.

(** X9. For an episode whose rows have the dimensions of the spaces and no
    not-a-number, and whose returns are set, [get_episode_batch] returns one
    row per record of the episode, in log order: the scaled observations, the
    scaled or the raw actions as [scaled_actions] tells, and the returns. *)
Theorem get_episode_batch_rows (m : Memory) (ep : Z) (scaled_actions : bool)
    (rets : list float) :
  aligned m ->
  machine_experiences m <> [] ->
  0 < length (observation_space m) ->
  0 < length (action_space m) ->
  Forall (row_fits m scaled_actions) (episode_rows m ep) ->
  map (fun row => discounted_return (snd row)) (episode_rows m ep) = map Some rets ->
  any_isnan rets = false ->
  let rows := episode_rows m ep in
  map snd rows = episode_records m ep /\
  length rows = length (episode_records m ep) /\
  get_episode_batch m ep scaled_actions =
    Ok (mk_ndarray (length rows) (length (observation_space m))
          (concat (map (fun row => mach_observation (snd row)) rows)),
        mk_ndarray (length rows) (length (action_space m))
          (concat (map (fun row => if scaled_actions then mach_action (snd row)
                                   else action (fst row)) rows)),
        mk_ndarray (length rows) 1 rets).
Proof.
  intros Hal Hne Hod Had Hfit Hret Hnan rows.
  pose proof (episode_rows_records ep Hal) as Hrec.
  split; [exact Hrec |].
  split; [subst rows; now rewrite <- Hrec, length_map |].
  now apply get_episode_batch_fit.
Qed.

(** X10. An episode with a record whose return is not set cannot be batched:
    when its rows fit, [get_episode_batch] raises TypeError, from the
    not-a-number test of the returns. *)
Theorem get_episode_batch_unset_return (m : Memory) (ep : Z) (scaled_actions : bool)
    (exp : MachineExperience) :
  aligned m ->
  0 < length (observation_space m) ->
  0 < length (action_space m) ->
  Forall (row_fits m scaled_actions) (episode_rows m ep) ->
  In exp (episode_records m ep) ->
  discounted_return exp = None ->
  get_episode_batch m ep scaled_actions = Raise TypeError.
Proof.
  intros Hal Hod Had Hfit Hin Hnone.
  assert (Hne : machine_experiences m <> []).
  { intros E. unfold episode_records in Hin. now rewrite E in Hin. }
  unfold get_episode_batch.
  rewrite (episode_arrays_fit ep Hal Hne Hod Had Hfit). simpl.
  destruct (rows_no_nan Hfit) as [No Na].
  unfold assert_not_nan. simpl. rewrite No, Na. simpl.
  unfold assert_returns_not_nan. simpl.
  rewrite all_set_none; [reflexivity |].
  rewrite <- (episode_rows_records ep Hal) in Hin.
  apply in_map_iff in Hin. destruct Hin as (row & <- & Hrow).
  apply in_map_iff. now exists row.
Qed.

Lemma get_episode_batch_rows_witness :
  let m := Demo.three_steps_returns in
  let rows := episode_rows m 0 in
  map snd rows = episode_records m 0 /\
  length rows = length (episode_records m 0) /\
  get_episode_batch m 0 false =
    Ok (mk_ndarray (length rows) (length (observation_space m))
          (concat (map (fun row => mach_observation (snd row)) rows)),
        mk_ndarray (length rows) (length (action_space m))
          (concat (map (fun row => if false then mach_action (snd row)
                                   else action (fst row)) rows)),
        mk_ndarray (length rows) 1 [1.75; 1.5; 1]%float).
Proof.
  apply (@get_episode_batch_rows Demo.three_steps_returns 0%Z false
           [1.75; 1.5; 1]%float).
  - reflexivity.
  - vm_compute. discriminate.
  - vm_compute. lia.
  - vm_compute. lia.
  - vm_compute. repeat constructor.
  - vm_compute. reflexivity.
  - reflexivity.
Defined.

Lemma get_episode_batch_unset_return_witness :
  get_episode_batch Demo.three_steps 0 true = Raise TypeError.
Proof.
  apply (@get_episode_batch_unset_return Demo.three_steps 0%Z true
           (hd MoreDemo.blank (machine_experiences Demo.three_steps))).
  - reflexivity.
  - vm_compute. lia.
  - vm_compute. lia.
  - vm_compute. repeat constructor.
  - vm_compute. left. reflexivity.
  - reflexivity.
Defined.

Lemma same_but_return_vectors (a b : list MachineExperience) :
  Forall2 same_but_return a b ->
  map mach_observation a = map mach_observation b /\
  map mach_action a = map mach_action b.
Proof.
  induction 1 as [| x y a b (Ho & Ha & _) _ [IH1 IH2]]; simpl; [auto |].
  now rewrite Ho, Ha, IH1, IH2.
Qed.

(** The batch of an episode after [calculate_returns], in terms of the
    returns [rtns] that [scale_returns] gives. *)
Lemma calculate_returns_scaled_then_batch (m : Memory) (ep : Z) (rtns : list float) :
  aligned m ->
  StronglySorted Z.le (map mach_episode (machine_experiences m)) ->
  episode_records m ep <> [] ->
  0 < length (observation_space m) ->
  0 < length (action_space m) ->
  Forall (record_fits m) (episode_records m ep) ->
  scale_returns (process_return m)
    (discounted_returns (discount m) (episode_records m ep)) = Ok rtns ->
  any_isnan rtns = false ->
  let recs := episode_records m ep in
  get_episode_batch (fst (calculate_returns m ep)) ep true =
    Ok (mk_ndarray (length recs) (length (observation_space m))
          (concat (map mach_observation recs)),
        mk_ndarray (length recs) (length (action_space m))
          (concat (map mach_action recs)),
        mk_ndarray (length recs) 1 rtns).
Proof.
  intros Hal Hs Hne Hod Had Hfit Hscale Hnan recs.
  destruct (exists_block (in_episode ep) (machine_experiences m) Hne)
    as (pre & block & post & first & rest & front & lst
        & Hlog & Hpre & Hpost & Hb & Hfirst & Hb' & Hlst).
  destruct (@calculate_returns_log_block m ep pre block post first lst rest front
              Hlog Hpre Hpost Hb Hfirst Hb' Hlst) as (rtns0 & Hs0 & Hl & Hc).
  assert (Hall : filter (in_episode ep) block = block).
  { rewrite Hlog in Hs.
    apply (@sorted_block_in_episode ep pre block post first lst rest front);
      auto; now apply Z.eqb_eq. }
  assert (Hrecs : recs = block).
  { unfold recs, episode_records. rewrite Hlog, !filter_app, Hpre, Hpost, Hall.
    now rewrite app_nil_r. }
  fold recs in Hscale, Hfit. rewrite Hrecs in *. rewrite Hall in Hs0, Hl, Hc.
  assert (rtns0 = rtns) by congruence. subst rtns0.
  destruct (fill_returns_same block rtns Hl) as [Hsame Hret].
  destruct (same_but_return_vectors Hsame) as [Ho Ha].
  set (m' := fst (calculate_returns m ep)).
  assert (Hm' : m' = with_logs m (experiences m) (pre ++ fill_returns block rtns ++ post))
    by (unfold m', calculate_returns; now rewrite Hc).
  assert (Hal' : aligned m').
  { rewrite Hm'. unfold aligned in *. simpl. rewrite Hal, Hlog, !length_app.
    apply Forall2_length in Hsame. lia. }
  assert (Hrec' : map snd (episode_rows m' ep) = fill_returns block rtns).
  { rewrite (episode_rows_records ep Hal'). rewrite Hm'.
    unfold episode_records. simpl. rewrite !filter_app, Hpre, Hpost, app_nil_r.
    apply fill_returns_in_episode, Hall. }
  assert (Hne' : machine_experiences m' <> []).
  { rewrite Hm'. simpl. intros E.
    apply (f_equal (@length MachineExperience)) in E.
    rewrite !length_app in E. apply Forall2_length in Hsame.
    rewrite Hb in Hsame at 1. simpl in *. lia. }
  assert (Hfit' : Forall (row_fits m' true) (episode_rows m' ep)).
  { assert (G : Forall (record_fits m) (map snd (episode_rows m' ep))).
    { rewrite Hrec'. clear -Hfit Hsame.
      induction Hsame as [| x y a b (Ho & Ha & _) _ IH]; [constructor |].
      inversion Hfit as [| ? ? (F1 & F2 & F3 & F4) Hrest]; subst.
      constructor; [| now apply IH].
      unfold record_fits. rewrite <- Ho, <- Ha. auto. }
    apply (proj1 (Forall_map_iff snd (record_fits m) (episode_rows m' ep))) in G.
    eapply Forall_impl; [| exact G]. intros row Hrow. rewrite Hm'. exact Hrow. }
  assert (Hret' : map (fun row => discounted_return (snd row)) (episode_rows m' ep)
                  = map Some rtns).
  { rewrite <- Hret, <- Hrec', map_map. reflexivity. }
  assert (Hod' : 0 < length (observation_space m')) by (now rewrite Hm').
  assert (Had' : 0 < length (action_space m')) by (now rewrite Hm').
  rewrite (@get_episode_batch_fit m' ep true rtns Hal' Hne' Hod' Had' Hfit' Hret' Hnan).
  replace (length (episode_rows m' ep)) with (length block)
    by (rewrite <- (length_map snd (episode_rows m' ep)), Hrec';
        now apply Forall2_length in Hsame).
  replace (map (fun row => mach_observation (snd row)) (episode_rows m' ep))
    with (map mach_observation block)
    by (now rewrite Ho, <- Hrec', map_map).
  replace (map (row_action true) (episode_rows m' ep))
    with (map mach_action block)
    by (now rewrite Ha, <- Hrec', map_map).
  rewrite Hm'. reflexivity.
Qed.

(** X11. From [calculate_returns] to [get_episode_batch], when
    [process_return] is none of 'scale_only', 'mean_scale' and 'min_max': on
    an aligned memory whose episodes never decrease along the log, once the
    returns of an episode with fitting records are computed, and none of
    them is a not-a-number, the batch of the episode holds its observations,
    its scaled actions, and as returns the discounted returns of the loop. *)
Theorem calculate_returns_then_batch (m : Memory) (ep : Z) :
  process_return m <> Some "scale_only"%string ->
  process_return m <> Some "mean_scale"%string ->
  process_return m <> Some "min_max"%string ->
  aligned m ->
  StronglySorted Z.le (map mach_episode (machine_experiences m)) ->
  episode_records m ep <> [] ->
  0 < length (observation_space m) ->
  0 < length (action_space m) ->
  Forall (record_fits m) (episode_records m ep) ->
  any_isnan (discounted_returns (discount m) (episode_records m ep)) = false ->
  let recs := episode_records m ep in
  get_episode_batch (fst (calculate_returns m ep)) ep true =
    Ok (mk_ndarray (length recs) (length (observation_space m))
          (concat (map mach_observation recs)),
        mk_ndarray (length recs) (length (action_space m))
          (concat (map mach_action recs)),
        mk_ndarray (length recs) 1 (discounted_returns (discount m) recs)).
Proof.
  intros H1 H2 H3 Hal Hs Hne Hod Had Hfit Hnan.
  apply calculate_returns_scaled_then_batch; auto.
  now apply scale_returns_passthrough.
Qed.

Lemma calculate_returns_then_batch_witness :
  let m := Demo.three_episodes in
  let recs := episode_records m 1 in
  get_episode_batch (fst (calculate_returns m 1)) 1 true =
    Ok (mk_ndarray (length recs) (length (observation_space m))
          (concat (map mach_observation recs)),
        mk_ndarray (length recs) (length (action_space m))
          (concat (map mach_action recs)),
        mk_ndarray (length recs) 1 (discounted_returns (discount m) recs)).
Proof.
  apply (@calculate_returns_then_batch Demo.three_episodes 1%Z).
  - discriminate.
  - discriminate.
  - discriminate.
  - reflexivity.
  - replace (map mach_episode (machine_experiences Demo.three_episodes))
      with [0; 0; 1; 1; 2]%Z by (vm_compute; reflexivity).
    repeat constructor; lia.
  - vm_compute. discriminate.
  - vm_compute. lia.
  - vm_compute. lia.
  - vm_compute. repeat constructor.
  - vm_compute. reflexivity.
Defined.

(** ** The episodic table *)

Lemma group_add_keys (k : Z) (v : float) (groups : list (Z * float)) (k' : Z) :
  In k' (map fst (Pd.group_add k v groups)) <-> k' = k \/ In k' (map fst groups).
Proof.
  induction groups as [| [k0 s] rest IH]; simpl.
  - intuition congruence.
  - destruct (Z.eqb_spec k k0) as [-> | Hne]; simpl; [intuition congruence |].
    destruct (k <? k0)%Z; simpl; [intuition congruence |].
    rewrite IH. intuition congruence.
Qed.

Lemma group_add_sorted (k : Z) (v : float) (groups : list (Z * float)) :
  StronglySorted Z.lt (map fst groups) ->
  StronglySorted Z.lt (map fst (Pd.group_add k v groups)).
Proof.
  induction groups as [| [k0 s] rest IH]; simpl; intros Hs.
  - repeat constructor.
  - apply StronglySorted_inv in Hs. destruct Hs as [Hs Hall].
    destruct (Z.eqb_spec k k0) as [-> | Hne]; simpl; [now constructor |].
    destruct (Z.ltb_spec k k0) as [Hlt | Hge]; simpl.
    + constructor; [now constructor |].
      constructor; [exact Hlt |].
      eapply Forall_impl; [| exact Hall]. intros; simpl in *; lia.
    + constructor; [now apply IH |].
      apply Forall_forall. intros k' Hk'. apply group_add_keys in Hk'.
      destruct Hk' as [-> | Hk']; [lia |].
      rewrite Forall_forall in Hall. now apply Hall.
Qed.

Lemma group_total_absent (k : Z) (groups : list (Z * float)) :
  ~ In k (map fst groups) -> group_total k groups = None.
Proof.
  unfold group_total. induction groups as [| [k0 s] rest IH]; simpl; intros H;
    [reflexivity |].
  destruct (Z.eqb_spec k0 k) as [-> | Hne]; [tauto |]. apply IH. tauto.
Qed.

Lemma group_total_cons (k' k0 : Z) (s : float) (rest : list (Z * float)) :
  group_total k' ((k0, s) :: rest) = if (k0 =? k')%Z then Some s else group_total k' rest.
Proof.
  unfold group_total. simpl. now destruct (k0 =? k')%Z.
Qed.

Lemma group_add_total (k : Z) (v : float) (groups : list (Z * float)) (k' : Z) :
  StronglySorted Z.lt (map fst groups) ->
  group_total k' (Pd.group_add k v groups) =
  if (k' =? k)%Z then add_to_total (group_total k groups) v
  else group_total k' groups.
Proof.
  induction groups as [| [k0 s] rest IH]; intros Hs.
  - simpl Pd.group_add. rewrite group_total_cons, (Z.eqb_sym k k').
    reflexivity.
  - simpl in Hs. apply StronglySorted_inv in Hs. destruct Hs as [Hs Hall].
    simpl Pd.group_add. rewrite !group_total_cons.
    destruct (Z.eqb_spec k k0) as [-> | Hne].
    + rewrite group_total_cons, Z.eqb_refl, (Z.eqb_sym k0 k').
      now destruct (k' =? k0)%Z.
    + destruct (Z.eqb_spec k0 k) as [E | _]; [congruence |].
      destruct (Z.ltb_spec k k0) as [Hlt | Hge].
      * rewrite !group_total_cons, (Z.eqb_sym k k').
        destruct (Z.eqb_spec k' k) as [E | Hk']; [| reflexivity].
        rewrite group_total_absent; [reflexivity |].
        intros Hin. rewrite Forall_forall in Hall. apply Hall in Hin. lia.
      * rewrite group_total_cons, (IH Hs).
        destruct (Z.eqb_spec k0 k') as [E | Hk0]; [| reflexivity].
        destruct (Z.eqb_spec k' k) as [E' | _]; [congruence | reflexivity].
Qed.

Lemma fold_add_to_total (vs : list float) (s : float) :
  fold_left add_to_total vs (Some s) = Some (fold_left PrimFloat.add vs s).
Proof.
  revert s. induction vs as [| v vs IH]; intros s; simpl; [reflexivity |].
  apply IH.
Qed.

(** The grouped table has its keys in increasing order, the keys of the rows,
    and for each key the sum of the values of its rows, taken in row order. *)
Lemma groupby_sum_from (rows : list (Z * float)) : forall groups,
  StronglySorted Z.lt (map fst groups) ->
  let result := fold_left (fun g row => Pd.group_add (fst row) (snd row) g) rows groups in
  StronglySorted Z.lt (map fst result) /\
  (forall k, In k (map fst result) <-> In k (map fst rows) \/ In k (map fst groups)) /\
  (forall k, group_total k result =
             fold_left add_to_total
               (map snd (filter (fun row => Z.eqb (fst row) k) rows))
               (group_total k groups)).
Proof.
  induction rows as [| [k0 v] rows IH]; intros groups Hs; simpl.
  - repeat split; auto; tauto.
  - destruct (IH (Pd.group_add k0 v groups) (@group_add_sorted k0 v groups Hs))
      as (H1 & H2 & H3).
    split; [exact H1 |]. split.
    + intros k. rewrite H2, group_add_keys. intuition congruence.
    + intros k. rewrite H3, (@group_add_total k0 v groups k Hs).
      rewrite (Z.eqb_sym k0 k).
      destruct (Z.eqb_spec k k0) as [-> | Hne]; reflexivity.
Qed.

Lemma group_total_in (groups : list (Z * float)) (k : Z) (s : float) :
  StronglySorted Z.lt (map fst groups) ->
  In (k, s) groups -> group_total k groups = Some s.
Proof.
  unfold group_total. induction groups as [| [k0 s0] rest IH]; simpl; intros Hs Hin;
    [tauto |].
  apply StronglySorted_inv in Hs. destruct Hs as [Hs Hall].
  destruct Hin as [[= -> ->] | Hin]; [now rewrite Z.eqb_refl |].
  destruct (Z.eqb_spec k0 k) as [-> | Hne]; [| now apply IH].
  exfalso. rewrite Forall_forall in Hall.
  assert (k < k)%Z by (apply Hall; now apply (in_map fst) in Hin). lia.
Qed.

Lemma combine_fst_snd {A B : Type} (l : list (A * B)) :
  combine (map fst l) (map snd l) = l.
Proof.
  induction l as [| [a b] l IH]; simpl; [reflexivity | now rewrite IH].
Qed.

Lemma map_fst_combine_same {A B : Type} (a : list A) : forall (b : list B),
  length a = length b -> map fst (combine a b) = a.
Proof.
  induction a as [| x a IH]; intros [| y b] H; simpl in *; try discriminate;
    [reflexivity |].
  injection H as H. now rewrite IH.
Qed.

Lemma length_cummax_from (s : list float) : forall cur,
  length (Pd.cummax_from cur s) = length s.
Proof.
  induction s as [| x s IH]; intros cur; simpl; [reflexivity |].
  destruct (is_nan x); simpl; now rewrite IH.
Qed.

Lemma output_results_table (m : Memory) :
  aligned m ->
  exists r,
    output_results m = Ok r /\
    dataframe_steps r = combine (experiences m) (machine_experiences m) /\
    combine (ep_index (dataframe_episodic r)) (ep_reward (dataframe_episodic r))
      = Pd.groupby_sum (map (fun exp => (episode exp, reward exp)) (experiences m)) /\
    length (ep_reward (dataframe_episodic r)) = length (ep_index (dataframe_episodic r)) /\
    length (ep_cum_max_reward (dataframe_episodic r))
      = length (ep_index (dataframe_episodic r)) /\
    length (ep_rolling_mean (dataframe_episodic r))
      = length (ep_index (dataframe_episodic r)).
Proof.
  intros Hal. unfold output_results. rewrite Hal, Nat.eqb_refl. simpl.
  eexists. split; [reflexivity |]. simpl.
  rewrite (map_fst_combine (fun exp => (episode exp, reward exp)) _ _ Hal).
  split; [reflexivity |]. split; [apply combine_fst_snd |].
  unfold Pd.cummax.
  now rewrite length_cummax_from, length_rolling_mean, !length_map.
Qed.

(** X12. The episodic table of [output_results] has one row per episode of
    the raw log, in increasing order of episode, and its four columns have
    the same length. *)
Theorem output_results_one_row_per_episode (m : Memory) :
  aligned m ->
  exists r,
    output_results m = Ok r /\
    let table := dataframe_episodic r in
    StronglySorted Z.lt (ep_index table) /\
    (forall k, In k (ep_index table) <->
               exists exp, In exp (experiences m) /\ episode exp = k) /\
    length (ep_reward table) = length (ep_index table) /\
    length (ep_cum_max_reward table) = length (ep_index table) /\
    length (ep_rolling_mean table) = length (ep_index table).
Proof.
  intros Hal.
  destruct (output_results_table Hal) as (r & Hr & _ & Hg & L1 & L2 & L3).
  exists r. split; [exact Hr |]. cbv zeta.
  pose proof (@groupby_sum_from
                (map (fun exp => (episode exp, reward exp)) (experiences m)) []
                (SSorted_nil _)) as (S1 & S2 & _).
  fold (Pd.groupby_sum (map (fun exp => (episode exp, reward exp)) (experiences m)))
    in S1, S2.
  rewrite <- Hg in S1, S2. rewrite map_fst_combine_same in S1, S2 by (symmetry; exact L1).
  repeat split; auto.
  - intros Hk. apply S2 in Hk. destruct Hk as [Hk | []].
    rewrite map_map in Hk. apply in_map_iff in Hk.
    destruct Hk as (exp & <- & Hexp). now exists exp.
  - intros (exp & Hexp & <-). apply S2. left.
    rewrite map_map. apply in_map_iff. now exists exp.
Qed.

Lemma output_results_one_row_per_episode_witness :
  exists r,
    output_results Demo.three_episodes = Ok r /\
    let table := dataframe_episodic r in
    StronglySorted Z.lt (ep_index table) /\
    (forall k, In k (ep_index table) <->
               exists exp, In exp (experiences Demo.three_episodes) /\ episode exp = k) /\
    length (ep_reward table) = length (ep_index table) /\
    length (ep_cum_max_reward table) = length (ep_index table) /\
    length (ep_rolling_mean table) = length (ep_index table).
Proof.
  apply (@output_results_one_row_per_episode Demo.three_episodes).
  reflexivity.
Defined.


(** ** The window of the random batch *)

Lemma slice_from_suffix {A : Type} (start : Z) (log : list A) :
  exists older, log = older ++ slice_from start log.
Proof.
  unfold slice_from. eexists. symmetry. apply firstn_skipn.
Qed.

(** X14. The window [machine_experiences[-memory_length:]] is always a suffix
    of the log.  A positive [memory_length] keeps that many of the most
    recent records, or all when there are fewer; [memory_length] zero keeps
    the whole log; a negative one drops that many of the oldest records. *)
Theorem mach_memory_window (m : Memory) :
  let log := machine_experiences m in
  let k := memory_length m in
  (exists older, log = older ++ mach_memory_of m) /\
  ((0 < k)%Z -> length (mach_memory_of m) = Nat.min (Z.to_nat k) (length log)) /\
  (k = 0%Z -> mach_memory_of m = log) /\
  ((k < 0)%Z -> mach_memory_of m = skipn (Z.to_nat (- k)) log).
Proof.
  cbv zeta. unfold mach_memory_of.
  split; [apply slice_from_suffix |]. split; [| split].
  - intros Hk. rewrite slice_from_most_recent by assumption.
    apply length_most_recent.
  - intros ->. reflexivity.
  - intros Hk. unfold slice_from.
    assert (E : (- memory_length m <? 0)%Z = false) by (apply Z.ltb_ge; lia).
    now rewrite E.
Qed.

Lemma mach_memory_window_witness :
  length (mach_memory_of Demo.three_steps)
    = Nat.min (Z.to_nat 2) (length (machine_experiences Demo.three_steps)) /\
  mach_memory_of (Demo.with_memory_length Demo.three_steps 0)
    = machine_experiences Demo.three_steps /\
  mach_memory_of (Demo.with_memory_length Demo.three_steps (-1))
    = skipn (Z.to_nat 1) (machine_experiences Demo.three_steps).
Proof.
  pose proof (@mach_memory_window Demo.three_steps) as H2.
  pose proof (@mach_memory_window (Demo.with_memory_length Demo.three_steps 0)) as H0.
  pose proof (@mach_memory_window (Demo.with_memory_length Demo.three_steps (-1))) as H1.
  cbv zeta in H2, H0, H1.
  destruct H2 as (_ & H2 & _). destruct H0 as (_ & _ & H0 & _).
  destruct H1 as (_ & _ & _ & H1).
  split; [| split].
  - apply H2. reflexivity.
  - apply H0. reflexivity.
  - apply H1. reflexivity.
Defined.

(** ** What [get_episode_batch] refuses *)

(** X15. [get_episode_batch] raises AssertionError when the two logs have
    different lengths, and IndexError when both are empty, whatever the
    episode and the flag: an empty memory has no episode column to test. *)
Theorem get_episode_batch_refuses (m : Memory) (ep : Z) (scaled_actions : bool) :
  (length (experiences m) <> length (machine_experiences m) ->
   get_episode_batch m ep scaled_actions = Raise AssertionError) /\
  (experiences m = [] -> machine_experiences m = [] ->
   get_episode_batch m ep scaled_actions = Raise IndexError).
Proof.
  unfold get_episode_batch, episode_arrays. split.
  - intros Hne. apply Nat.eqb_neq in Hne. now rewrite Hne.
  - intros -> ->. reflexivity.
Qed.

Lemma get_episode_batch_refuses_witness :
  get_episode_batch MoreDemo.lossy 0 true = Raise AssertionError /\
  get_episode_batch
    (init [Demo.unit_dim] [Demo.unit_dim] (mk_dim 0 1) 0.5%float 10
       None (Some "min_max"%string)) 0 true = Raise IndexError.
Proof.
  split.
  - apply (proj1 (@get_episode_batch_refuses MoreDemo.lossy 0%Z true)).
    vm_compute. discriminate.
  - apply (proj2 (@get_episode_batch_refuses
                    (init [Demo.unit_dim] [Demo.unit_dim] (mk_dim 0 1) 0.5%float 10
                       None (Some "min_max"%string)) 0%Z true));
      reflexivity.
Defined.

(** ** The registry *)

Lemma find_key_in {V : Type} (table : list (string * V)) (key : string) :
  match find (fun entry => String.eqb (fst entry) key) table with
  | Some entry => fst entry = key /\ In entry table
  | None => ~ In key (map fst table)
  end.
Proof.
  induction table as [| [k v] table IH]; simpl; [tauto |].
  destruct (String.eqb_spec k key) as [-> | Hne]; simpl; [auto |].
  destruct (find _ table) as [entry |]; [tauto | intuition congruence].
Qed.

(** X16. [make_env] raises KeyError exactly for an id that is none of the six
    registered names, compared letter by letter; for a registered name it
    calls the class registered under it, with the keyword arguments as they
    are.  No name is registered twice and no class under two names. *)
Theorem make_env_registered {K E : Type} (construct : Register.EnvClass -> K -> E)
    (env_id : string) (kwargs : K) :
  (In env_id (map fst Register.env_register) ->
   exists env, In (env_id, env) Register.env_register /\
               Register.make_env construct env_id kwargs
                 = Register.Env (construct env kwargs)) /\
  (~ In env_id (map fst Register.env_register) ->
   Register.make_env construct env_id kwargs = Register.KeyError env_id) /\
  NoDup (map fst Register.env_register) /\
  NoDup (map snd Register.env_register).
Proof.
  unfold Register.make_env, Register.lookup.
  pose proof (find_key_in Register.env_register env_id) as H.
  destruct (find _ Register.env_register) as [[k env] |];
    cbn [option_map fst snd] in *.
  - destruct H as [-> Hin]. split; [| split].
    + intros _. now exists env.
    + intros Hno. exfalso. apply Hno.
      apply (in_map fst) in Hin. exact Hin.
    + split; repeat constructor; simpl; intuition discriminate.
  - split; [| split].
    + tauto.
    + reflexivity.
    + split; repeat constructor; simpl; intuition discriminate.
Qed.

Lemma make_env_registered_witness :
  (exists env, In ("battery"%string, env) Register.env_register /\
               Register.make_env (fun env (kw : nat) => (env, kw)) "battery" 7
                 = Register.Env (env, 7)) /\
  Register.make_env (fun env (kw : nat) => (env, kw)) "Battery" 7
    = Register.KeyError "Battery"%string.
Proof.
  split.
  - apply (proj1 (make_env_registered (fun env (kw : nat) => (env, kw))
                    "battery"%string 7)).
    simpl. tauto.
  - apply (proj1 (proj2 (make_env_registered (fun env (kw : nat) => (env, kw))
                           "Battery"%string 7))).
    simpl. intuition discriminate.
Defined.

(** ** The running maximum *)

(** The order of the floats that are numbers, from its specification. *)
Ltac compare_cases :=
  repeat match goal with
  | |- context [Z.compare ?a ?b] => destruct (Z.compare_spec a b)
  | H : context [Z.compare ?a ?b] |- _ => destruct (Z.compare_spec a b)
  | |- context [Pos.compare_cont Eq ?a ?b] =>
      change (Pos.compare_cont Eq a b) with (Pos.compare a b);
      destruct (Pos.compare_spec a b)
  | H : context [Pos.compare_cont Eq ?a ?b] |- _ =>
      change (Pos.compare_cont Eq a b) with (Pos.compare a b) in H;
      destruct (Pos.compare_spec a b)
  end.

Lemma SFleb_trans (x y z : SpecFloat.spec_float) :
  SpecFloat.SFleb x y = true -> SpecFloat.SFleb y z = true ->
  SpecFloat.SFleb x z = true.
Proof.
  unfold SpecFloat.SFleb, SpecFloat.SFcompare.
  destruct x as [[]|[]| |[] mx ex], y as [[]|[]| |[] my ey], z as [[]|[]| |[] mz ez];
    simpl; try discriminate; try reflexivity; intros H1 H2;
    compare_cases; simpl in *; try discriminate; try reflexivity; subst; try lia.
Qed.

Lemma SFleb_of_not_ltb (x y : SpecFloat.spec_float) :
  x <> SpecFloat.S754_nan -> y <> SpecFloat.S754_nan ->
  SpecFloat.SFltb x y = false -> SpecFloat.SFleb y x = true.
Proof.
  unfold SpecFloat.SFleb, SpecFloat.SFltb, SpecFloat.SFcompare.
  destruct x as [[]|[]| |[] mx ex], y as [[]|[]| |[] my ey];
    simpl; try discriminate; try reflexivity; try congruence; intros _ _ H1;
    compare_cases; simpl in *; try discriminate; try reflexivity; subst; try lia.
Qed.

Lemma is_nan_false (x : float) : is_nan x = false -> Prim2SF x <> SpecFloat.S754_nan.
Proof.
  unfold is_nan. rewrite eqb_spec. intros H E. rewrite E in H. discriminate.
Qed.

Lemma leb_trans (x y z : float) :
  (x <=? y)%float = true -> (y <=? z)%float = true -> (x <=? z)%float = true.
Proof.
  rewrite !leb_spec. apply SFleb_trans.
Qed.

Lemma leb_of_not_ltb (x y : float) :
  is_nan x = false -> is_nan y = false ->
  (x <? y)%float = false -> (y <=? x)%float = true.
Proof.
  intros Hx Hy. rewrite ltb_spec, leb_spec.
  apply SFleb_of_not_ltb; now apply is_nan_false.
Qed.

Lemma leb_of_ltb (x y : float) : (x <? y)%float = true -> (x <=? y)%float = true.
Proof.
  rewrite ltb_spec, leb_spec. unfold SpecFloat.SFltb, SpecFloat.SFleb.
  now destruct (SpecFloat.SFcompare (Prim2SF x) (Prim2SF y)) as [[] |].
Qed.

Lemma leb_refl (x : float) : is_nan x = false -> (x <=? x)%float = true.
Proof.
  intros Hx. apply leb_of_not_ltb; auto.
  destruct (x <? x)%float eqn:E; [| reflexivity].
  rewrite ltb_spec in E. unfold SpecFloat.SFltb, SpecFloat.SFcompare in E.
  destruct (Prim2SF x) as [[]|[]| |[] mx ex]; simpl in E; try discriminate;
    rewrite Z.compare_refl in E;
    change (Pos.compare_cont Eq mx mx) with (Pos.compare mx mx) in E;
    rewrite Pos.compare_refl in E; discriminate.
Qed.

(** The running maximum from a current maximum [c]: every row is [c] or an
    earlier value of the series, and is no less than [c] and than every
    value up to its row. *)
Lemma cummax_from_rows (s : list float) : forall (c : float) (i : nat),
  any_isnan s = false -> is_nan c = false -> i < length s ->
  let ci := nth i (Pd.cummax_from (Some c) s) 0%float in
  is_nan ci = false /\
  (ci = c \/ exists j, j <= i /\ ci = nth j s 0%float) /\
  (c <=? ci)%float = true /\
  forall j, j <= i -> (nth j s 0 <=? ci)%float = true.
Proof.
  induction s as [| x s IH]; intros c i Hs Hc Hi; simpl in Hi; [lia |].
  unfold any_isnan in Hs. simpl in Hs. apply orb_false_iff in Hs.
  destruct Hs as [Hx Hs]. simpl. rewrite Hx.
  set (c' := if (c <? x)%float then x else c).
  assert (Hc' : is_nan c' = false) by (unfold c'; now destruct (c <? x)%float).
  assert (Hcc : (c <=? c')%float = true).
  { unfold c'. destruct (c <? x)%float eqn:E; [now apply leb_of_ltb | now apply leb_refl]. }
  assert (Hxc : (x <=? c')%float = true).
  { unfold c'. destruct (c <? x)%float eqn:E; [now apply leb_refl | now apply leb_of_not_ltb]. }
  assert (Hsrc : c' = c \/ c' = x) by (unfold c'; destruct (c <? x)%float; auto).
  destruct i as [| i]; simpl.
  - repeat split; auto.
    + destruct Hsrc as [-> | ->]; [now left | right; exists 0; auto].
    + intros j Hj. replace j with 0 by lia. exact Hxc.
  - destruct (IH c' i Hs Hc' ltac:(lia)) as (N & Hsel & Hge & Hall).
    repeat split; auto.
    + destruct Hsel as [E | (j & Hj & E)].
      * rewrite E. destruct Hsrc as [-> | ->]; [now left | right; exists 0; split; [lia | auto]].
      * right. exists (S j). split; [lia | exact E].
    + eapply leb_trans; eauto.
    + intros [| j] Hj; [eapply leb_trans; eauto | apply Hall; lia].
Qed.

Lemma cummax_rows (s : list float) (i : nat) :
  any_isnan s = false -> i < length s ->
  let ci := nth i (Pd.cummax s) 0%float in
  (exists j, j <= i /\ ci = nth j s 0%float) /\
  forall j, j <= i -> (nth j s 0 <=? ci)%float = true.
Proof.
  unfold Pd.cummax. destruct s as [| x s]; simpl; intros Hs Hi; [lia |].
  unfold any_isnan in Hs. simpl in Hs. apply orb_false_iff in Hs.
  destruct Hs as [Hx Hs]. rewrite Hx.
  destruct i as [| i]; simpl.
  - split; [exists 0; auto |]. intros j Hj. replace j with 0 by lia.
    now apply leb_refl.
  - destruct (@cummax_from_rows s x i Hs Hx ltac:(lia)) as (_ & Hsel & Hge & Hall).
    split.
    + destruct Hsel as [E | (j & Hj & E)]; [exists 0 | exists (S j)]; split; auto; lia.
    + intros [| j] Hj; [exact Hge | apply Hall; lia].
Qed.

(** X17. When no summed reward is a not-a-number, every row of the
    cum_max_reward column of the episodic table is the largest summed reward
    among the episodes up to that row: it is one of them, and none of them
    exceeds it. *)
Theorem output_results_cum_max (m : Memory) :
  aligned m ->
  any_isnan (map snd (Pd.groupby_sum
                        (map (fun exp => (episode exp, reward exp)) (experiences m))))
    = false ->
  exists r,
    output_results m = Ok r /\
    let table := dataframe_episodic r in
    forall i, i < length (ep_reward table) ->
      (exists j, j <= i /\
         nth i (ep_cum_max_reward table) 0%float = nth j (ep_reward table) 0%float) /\
      (forall j, j <= i ->
         (nth j (ep_reward table) 0 <=? nth i (ep_cum_max_reward table) 0)%float = true).
Proof.
  intros Hal Hn. unfold output_results. rewrite Hal, Nat.eqb_refl. simpl.
  eexists. split; [reflexivity |]. simpl.
  rewrite (map_fst_combine (fun exp => (episode exp, reward exp)) _ _ Hal).
  intros i Hi. now apply cummax_rows.
Qed.

Lemma output_results_cum_max_witness :
  exists r,
    output_results Demo.thirty_episodes = Ok r /\
    let table := dataframe_episodic r in
    forall i, i < length (ep_reward table) ->
      (exists j, j <= i /\
         nth i (ep_cum_max_reward table) 0%float = nth j (ep_reward table) 0%float) /\
      (forall j, j <= i ->
         (nth j (ep_reward table) 0 <=? nth i (ep_cum_max_reward table) 0)%float = true).
Proof.
  apply (@output_results_cum_max Demo.thirty_episodes).
  - reflexivity.
  - vm_compute. reflexivity.
Defined.

(** ** Batch sizes at the edge *)

Section EdgeBatches.

Variable RandomState : Type.
Variable draw : RandomState -> nat -> nat -> list nat * RandomState.

Hypothesis draw_in_range : forall (g : RandomState) (high size : nat),
  0 < high ->
  length (fst (draw g high size)) = size /\
  Forall (fun i => i < high) (fst (draw g high size)).

(** X18. A negative [batch_size] makes [get_random_batch] raise ValueError
    before any number is drawn.  A [batch_size] of zero, on a memory with
    records and a positive [memory_length], gives four arrays without rows,
    whatever the records hold. *)
Theorem get_random_batch_edge_sizes (m : Memory) (g : RandomState) :
  (forall batch_size, (batch_size < 0)%Z ->
     get_random_batch draw m batch_size g = (Raise ValueError, g)) /\
  ((0 < memory_length m)%Z -> machine_experiences m <> [] ->
   get_random_batch draw m 0 g =
     (Ok (mk_ndarray 0 (length (observation_space m)) [],
          mk_ndarray 0 (length (action_space m)) [],
          mk_ndarray 0 1 [],
          mk_ndarray 0 (length (observation_space m)) []),
      snd (draw g (length (mach_memory_of m)) 0))).
Proof.
  split.
  - intros batch_size Hneg.
    unfold get_random_batch, random_arrays, sample_batch, randint.
    destruct (Z.of_nat (length (mach_memory_of m)) <=? 0)%Z; [reflexivity |].
    assert (E : (sample_size_of m batch_size <? 0)%Z = true)
      by (apply Z.ltb_lt; unfold sample_size_of; lia).
    now rewrite E.
  - intros Hk Hne.
    unfold get_random_batch, random_arrays, sample_batch, randint.
    assert (Hlen : 0 < length (mach_memory_of m)).
    { unfold mach_memory_of. rewrite slice_from_most_recent, length_most_recent by assumption.
      destruct (machine_experiences m); [congruence | simpl; lia]. }
    assert (E1 : (Z.of_nat (length (mach_memory_of m)) <=? 0)%Z = false)
      by (apply Z.leb_gt; lia).
    assert (E0 : sample_size_of m 0 = 0%Z) by (unfold sample_size_of; lia).
    rewrite E1, E0. simpl (0 <? 0)%Z. cbv iota. rewrite Nat2Z.id.
    destruct (draw_in_range g 0 Hlen) as [Hl _]. simpl (Z.to_nat 0).
    destruct (draw g (length (mach_memory_of m)) 0) as [indicies g'] eqn:Ed.
    simpl in Hl. destruct indicies; [| discriminate].
    simpl. unfold batch_arrays. simpl. reflexivity.
Qed.

End EdgeBatches.

Lemma get_random_batch_edge_sizes_witness :
  get_random_batch Stub.draw Demo.three_steps (-1) 0 = (Raise ValueError, 0) /\
  get_random_batch Stub.draw Demo.three_steps 0 0 =
    (Ok (mk_ndarray 0 2 [], mk_ndarray 0 1 [], mk_ndarray 0 1 [], mk_ndarray 0 2 []), 0).
Proof.
  destruct (@get_random_batch_edge_sizes nat Stub.draw stub_draw_in_range
              Demo.three_steps 0) as [Hneg Hzero].
  split.
  - apply Hneg. reflexivity.
  - apply Hzero; [reflexivity | vm_compute; discriminate].
Defined.

(** ** The episodic table, whatever the arithmetic of pandas *)

Lemma insert_key_in (k : Z) (keys : list Z) (k' : Z) :
  In k' (insert_key k keys) <-> k' = k \/ In k' keys.
Proof.
  induction keys as [| k0 rest IH]; simpl.
  - intuition congruence.
  - destruct (Z.eqb_spec k k0) as [E | Hne]; simpl; [intuition congruence |].
    destruct (k <? k0)%Z; simpl; [intuition congruence |].
    rewrite IH. intuition congruence.
Qed.

Lemma insert_key_sorted (k : Z) (keys : list Z) :
  StronglySorted Z.lt keys -> StronglySorted Z.lt (insert_key k keys).
Proof.
  induction keys as [| k0 rest IH]; simpl; intros Hs.
  - repeat constructor.
  - apply StronglySorted_inv in Hs. destruct Hs as [Hs Hall].
    destruct (Z.eqb_spec k k0) as [E | Hne]; [now constructor |].
    destruct (Z.ltb_spec k k0) as [Hlt | Hge].
    + constructor; [now constructor |].
      constructor; [exact Hlt |].
      eapply Forall_impl; [| exact Hall]. intros a Ha. lia.
    + constructor; [now apply IH |].
      apply Forall_forall. intros k' Hk'. apply insert_key_in in Hk'.
      destruct Hk' as [E | Hk']; [lia |].
      rewrite Forall_forall in Hall. now apply Hall.
Qed.

Lemma group_keys_from (ks : list Z) : forall keys,
  StronglySorted Z.lt keys ->
  StronglySorted Z.lt (fold_left (fun acc k => insert_key k acc) ks keys) /\
  (forall k, In k (fold_left (fun acc k0 => insert_key k0 acc) ks keys)
             <-> In k ks \/ In k keys).
Proof.
  induction ks as [| k0 ks IH]; intros keys Hs; simpl.
  - split; [exact Hs | tauto].
  - destruct (IH (insert_key k0 keys) (insert_key_sorted k0 Hs)) as [H1 H2].
    split; [exact H1 |]. intros k. rewrite H2, insert_key_in. intuition congruence.
Qed.

(** The keys of a grouped table: the keys of the rows, each once, in
    increasing order. *)
Lemma group_keys_sorted (ks : list Z) :
  StronglySorted Z.lt (group_keys ks) /\
  (forall k, In k (group_keys ks) <-> In k ks).
Proof.
  destruct (group_keys_from ks (SSorted_nil Z.lt)) as [H1 H2].
  split; [exact H1 |]. intros k. unfold group_keys. rewrite H2. simpl. tauto.
Qed.

Lemma sorted_same_members (l1 : list Z) : forall l2,
  StronglySorted Z.lt l1 -> StronglySorted Z.lt l2 ->
  (forall k, In k l1 <-> In k l2) -> l1 = l2.
Proof.
  induction l1 as [| a l1 IH]; intros [| b l2] H1 H2 Hm.
  - reflexivity.
  - exfalso. apply (Hm b). now left.
  - exfalso. apply (Hm a). now left.
  - apply StronglySorted_inv in H1, H2.
    destruct H1 as [H1 A1], H2 as [H2 A2].
    rewrite Forall_forall in A1, A2.
    assert (a = b).
    { destruct (proj1 (Hm a) (or_introl eq_refl)) as [E | Ha]; [congruence |].
      destruct (proj2 (Hm b) (or_introl eq_refl)) as [E | Hb]; [congruence |].
      apply A2 in Ha. apply A1 in Hb. lia. }
    subst b. f_equal. apply IH; auto.
    intros k. split; intros Hk.
    + destruct (proj1 (Hm k) (or_intror Hk)) as [E | Hk']; [| exact Hk'].
      apply A1 in Hk. lia.
    + destruct (proj2 (Hm k) (or_intror Hk)) as [E | Hk']; [| exact Hk'].
      apply A2 in Hk. lia.
Qed.




(** ** The plain arithmetic is one instance *)

Lemma fold_add_to_total_sum (v : float) (vs : list float) :
  fold_left add_to_total (v :: vs) None = Some (Np.sum (v :: vs)).
Proof.
  unfold Np.sum. cbn [fold_left]. unfold add_to_total at 2.
  apply fold_add_to_total.
Qed.

Lemma totals_of_sorted (f : Z -> float) (groups : list (Z * float)) :
  StronglySorted Z.lt (map fst groups) ->
  (forall k, In k (map fst groups) -> group_total k groups = Some (f k)) ->
  groups = map (fun k => (k, f k)) (map fst groups).
Proof.
  induction groups as [| [k0 s0] rest IH]; intros Hs Ht; [reflexivity |].
  cbn [map fst] in *. apply StronglySorted_inv in Hs. destruct Hs as [Hs Hall].
  f_equal.
  - f_equal. specialize (Ht k0 (or_introl eq_refl)).
    rewrite group_total_cons, Z.eqb_refl in Ht. congruence.
  - apply IH; [exact Hs |]. intros k Hk.
    specialize (Ht k (or_intror Hk)). rewrite group_total_cons in Ht.
    destruct (Z.eqb_spec k0 k) as [E | Hne]; [| exact Ht].
    rewrite Forall_forall in Hall. apply Hall in Hk. lia.
Qed.

Lemma filter_key_nonempty (rows : list (Z * float)) (k : Z) :
  In k (map fst rows) ->
  exists v vs, map snd (filter (fun row => Z.eqb (fst row) k) rows) = v :: vs.
Proof.
  induction rows as [| [k0 v0] rows IH]; simpl; [tauto |].
  intros [E | Hin].
  - subst k0. rewrite Z.eqb_refl. simpl. eauto.
  - destruct (k0 =? k)%Z; simpl; [eauto | now apply IH].
Qed.

(** [Pd.groupby_sum] is the grouped table whose sums are plain sums from the
    left. *)
Lemma groupby_sum_plain (rows : list (Z * float)) :
  Pd.groupby_sum rows = groupby_sum_with Np.sum rows.
Proof.
  destruct (@groupby_sum_from rows [] (SSorted_nil Z.lt)) as (H1 & H2 & H3).
  fold (Pd.groupby_sum rows) in H1, H2, H3.
  destruct (group_keys_sorted (map fst rows)) as [K1 K2].
  assert (Hkeys : map fst (Pd.groupby_sum rows) = group_keys (map fst rows)).
  { apply sorted_same_members; [exact H1 | exact K1 |].
    intros k. rewrite H2, K2. simpl. tauto. }
  unfold groupby_sum_with. rewrite <- Hkeys.
  apply (@totals_of_sorted
           (fun k => Np.sum (map snd (filter (fun row => Z.eqb (fst row) k) rows)))
           (Pd.groupby_sum rows) H1).
  intros k Hk. rewrite H3. apply H2 in Hk. destruct Hk as [Hk | []].
  destruct (filter_key_nonempty rows k Hk) as (v & vs & E).
  rewrite E. apply fold_add_to_total_sum.
Qed.

(** [Pd.rolling_mean] is the rolling mean that sums each window afresh. *)
Lemma rolling_mean_plain (window min_periods : nat) (center : bool) (s : list float) :
  Pd.rolling_mean window min_periods center s
  = rolling_mean_with plain_window_mean window min_periods center s.
Proof.
  unfold Pd.rolling_mean, rolling_mean_with. apply map_ext. intros i.
  unfold plain_window_mean, windows_upto.
  rewrite seq_S, map_app. cbn [map Nat.add]. now rewrite last_last.
Qed.

(** [output_results], the model of the table under plain arithmetic, is
    [output_results_with] at the plain sum and the plain mean. *)
Lemma output_results_plain (m : Memory) :
  output_results m = output_results_with Np.sum plain_window_mean m.
Proof.
  unfold output_results, output_results_with.
  now rewrite groupby_sum_plain, rolling_mean_plain.
Qed.
